(** * The transport of the BattlEye RCON client: [src/lib/socket.ts]

    A shallow embedding of the class [Socket] and the properties of its
    methods [connection], [receive], [send] and [close] and of the
    listeners it installs on the UDP socket.

    [Socket] is event driven.  Every handler runs to completion, so a
    handler is a function from the world before it to the world after it
    and to what it returns or throws; the asynchronous boundaries (the
    completion of a datagram send, the settlement of a promise, the events
    of the UDP socket) are separate steps, taken later by the runtime.

    Of the modules [socket.ts] imports, [utils], [packet] and [connection]
    are collaborators whose code is elsewhere: they are interfaces here
    (type classes), every call the [Socket] makes on them is recorded in a
    trace, and the theorems hold for every implementation.  What a method
    of a [Connection] does beyond changing the state of that connection
    (a [connect] that sends its login packet through [Socket.send]) is a
    step of its own.

    Of the runtime, these behaviours are part of the model: a promise
    settles once; the UDP socket of [dgram] throws
    [ERR_SOCKET_DGRAM_NOT_RUNNING] from [send] and from [close] once its
    handle is released; it queues the sends made before it is bound, and
    while it has a queue it queues [close] as well, which then returns
    without closing and without throwing; the queue is run when the socket
    is bound and dropped when it reports an error.  Listeners are taken to
    return normally, and connections to have a port that [dgram] accepts
    (1 to 65535). *)

From Stdlib Require Import ZArith List String Bool Lia DecimalString.
From stdpp Require Import base option list.
Import ListNotations.
Open Scope Z_scope.

(** ** Values *)

(** References to [Connection] objects and to promises. *)
Abbreviation loc := nat (only parsing).
Abbreviation pid := nat (only parsing).

(** A Node [Buffer]. *)
Definition Buffer := list Byte.byte.

(** [errors.ts] exports the first three classes; [TypeError] is the
    language's; [ERR_SOCKET_DGRAM_NOT_RUNNING] is what [dgram] throws on a
    socket that has no handle; [Thrown] stands for any other error a
    collaborator raises, by its name and message. *)
Inductive Error :=
| ConnectionExists
| InvalidPacket
| UnknownConnection (id address : string) (port : Z)
| TypeError (message : string)
| ERR_SOCKET_DGRAM_NOT_RUNNING
| Thrown (name message : string).

(** Modelled from the spec: [PacketType] ([packet.ts] is not among the
    sources): "kind (Login | Command | Message)". *)
Inductive PacketType := Login | Command | Message.

Definition PacketType_eqb (a b : PacketType) : bool :=
  match a, b with
  | Login, Login | Command, Command | Message, Message => true
  | _, _ => false
  end.

(** Modelled from the spec: the class [Packet] ([packet.ts] is not among the
    sources), by the members [socket.ts] reads ([type], [valid]) or reads
    and writes ([sequence]), and its "payload (raw bytes after header)". *)
Record Packet := mkPacket {
  type : PacketType;
  sequence : Z;
  valid : bool;
  payload : Buffer
}.

Definition set_sequence (s : Z) (p : Packet) : Packet :=
  mkPacket (type p) s (valid p) (payload p).

(** [dgram.RemoteInfo]. *)
Record RemoteInfo := mkRemoteInfo {
  address : string;
  port : Z;
  size : Z
}.

(** [IConnectionDetails], with the fields the callers of [connection] give:
    [ip], [port] and [password]. *)
Record IConnectionDetails := mkDetails {
  details_ip : string;
  details_port : Z;
  details_password : string
}.

(** [IPacketResponse], the value a send promise resolves with. *)
Record IPacketResponse := mkResponse {
  bytes : Z;
  sent : Packet;
  received : option Packet;
  response_connection : loc
}.

(** The argument of [connection.store]: the fields [resolve] and [reject]
    are the two continuations of one promise, held here by its reference;
    [cause] is an [Error] made only for its stack and carries no data. *)
Record IPacketStore := mkStore {
  store_packet : Packet;
  store_bytes : Z;
  store_promise : pid
}.

(** A promise is pending, or settled once and for all. *)
Inductive Promise (A : Type) :=
| Pending
| Fulfilled (a : A)
| Rejected (e : Error).
Arguments Pending {A}.
Arguments Fulfilled {A} a.
Arguments Rejected {A} e.

(** An argument that the code tests with [instanceof]: callers from
    untyped code may pass anything. *)
Inductive Js (A : Type) :=
| Instance (a : A)
| Foreign.
Arguments Instance {A} a.
Arguments Foreign {A}.

(** ** Events and the trace *)

(** Events the [Socket] emits on itself. *)
Inductive SocketEvent :=
| Ev_listening
| Ev_received (resolved : bool) (packet : Packet) (buffer : Buffer)
              (connection : loc) (info : RemoteInfo)
| Ev_sent (packet : Packet) (buffer : Buffer) (nbytes : Z) (connection : loc)
| Ev_error (e : Error).

(** Events the [Socket] emits on a [Connection]. *)
Inductive ConnectionEvent :=
| CEv_received (resolved : bool) (packet : Packet) (buffer : Buffer)
               (info : RemoteInfo)
| CEv_error (e : Error).

(** What the [Socket] does to the world outside its own fields, in the
    order it does it. *)
Inductive Effect :=
| SocketEmit (e : SocketEvent)
| ConnectionEmit (c : loc) (e : ConnectionEvent)
| Call_FROM (buffer : Buffer)
| Call_serialize (packet : Packet)
| Get_sequence (c : loc)
| Call_connect (c : loc) (p : pid)
| Call_recieve (c : loc) (packet : Packet)
| Call_store (c : loc) (s : IPacketStore)
| Call_kill (c : loc) (err : option Error)
| Dgram_send (buffer : Buffer) (offset length : nat) (port : Z) (ip : string)
| Dgram_once_listening (c : loc)
| Dgram_close.

(** ** Collaborators *)

(** [utils.hashAddress]. *)
Class Utils := {
  hashAddress : string -> Z -> string
}.

(** [Packet.FROM] and [packet.serialize]; both may throw. *)
Class PacketCodec := {
  Packet_FROM : Buffer -> Error + Packet;
  Packet_serialize : Packet -> Error + Buffer
}.

(** The class [Connection], by the members [socket.ts] uses.  The state of
    a connection is its own; a method maps the state before the call to
    the state after it and to what the call returns.  [Connection_store]
    and [Connection_kill] may throw (an ['error'] event emitted on a
    connection that has no listener for it is thrown), the getter
    [sequence] may step a counter. *)
Class ConnectionImpl := {
  ConnState : Type;
  IConnectionOptions : Type;
  Connection_init : IConnectionDetails -> IConnectionOptions -> ConnState;
  Connection_connect : ConnState -> ConnState;
  Connection_recieve : Packet -> ConnState -> bool * ConnState;
  Connection_store : IPacketStore -> ConnState -> option Error * ConnState;
  Connection_kill : option Error -> ConnState -> option Error * ConnState;
  Connection_sequence : ConnState -> Z * ConnState
}.

(** A JavaScript object used as a map from strings: the keys are kept in
    the order of their first assignment, which is the order of
    [Object.keys].  The keys of [this.connections] are what [hashAddress]
    gives; the properties an object inherits from its prototype are not
    among them. *)
Section JsObject.
Context {V : Type}.

Fixpoint obj_get (o : list (string * V)) (k : string) : option V :=
  match o with
  | [] => None
  | (k', v) :: o' => if String.eqb k' k then Some v else obj_get o' k
  end.

Fixpoint obj_set (o : list (string * V)) (k : string) (v : V)
  : list (string * V) :=
  match o with
  | [] => [(k, v)]
  | (k', v') :: o' =>
      if String.eqb k' k then (k, v) :: o' else (k', v') :: obj_set o' k v
  end.

Definition obj_keys (o : list (string * V)) : list string := map fst o.
End JsObject.

(** What a handler does in the end: it returns, or it throws. *)
Inductive outcome (A : Type) :=
| Returns (a : A)
| Throws (e : Error).
Arguments Returns {A} a.
Arguments Throws {A} e.

(** ** The world *)

Section Transport.
Context {U : Utils} {PC : PacketCodec} {CI : ConnectionImpl}.

(** A [Connection] object: the fields the [Socket] reads ([id], [ip],
    [port]), and its own state. *)
Record Connection := mkConnection {
  conn_id : string;
  conn_ip : string;
  conn_port : Z;
  conn_state : ConnState
}.

(** The closure [Socket.send] hands to [socket.send]: the variables it
    captures. *)
Record SendCallback := mkSendCallback {
  cb_packet : Packet;
  cb_buffer : Buffer;
  cb_connection : loc;
  cb_resolve : bool;
  cb_promise : pid
}.

(** A call waiting in the queue of the UDP socket. *)
Inductive Queued := Queued_send | Queued_close.

Definition is_queued_close (q : Queued) : bool :=
  match q with
  | Queued_close => true
  | Queued_send => false
  end.

(** The fields of the [Socket] ([connections], [info.listening]), the
    UDP socket it owns, the heap of [Connection] objects, the promises made
    by [send], the promises returned by the calls of [connect] that the
    [Socket] made (each has the [catch] handler of [Socket.connection]
    attached), and the trace.

    Of the UDP socket: [dgram_running], it has its handle, that is, no
    [close] has released it; [dgram_bound], it is bound, that is, it has
    emitted ['listening']; [dgram_queue], its queue, [None] when it has
    none; the listeners the [Socket] added with [once]; and the sends it
    accepted whose callback is still to be called. *)
Record World := mkWorld {
  connections : list (string * loc);
  info_listening : bool;
  dgram_running : bool;
  dgram_bound : bool;
  dgram_queue : option (list Queued);
  dgram_once_listening : list loc;
  dgram_sending : list (option SendCallback);
  heap : list Connection;
  promises : list (Promise IPacketResponse);
  connecting : list (Promise unit);
  trace : list Effect
}.

Definition set_connections f w :=
  mkWorld (f (connections w)) (info_listening w) (dgram_running w)
    (dgram_bound w) (dgram_queue w)
    (dgram_once_listening w) (dgram_sending w) (heap w) (promises w)
    (connecting w) (trace w).
Definition set_info_listening b w :=
  mkWorld (connections w) b (dgram_running w)
    (dgram_bound w) (dgram_queue w)
    (dgram_once_listening w) (dgram_sending w) (heap w) (promises w)
    (connecting w) (trace w).
Definition set_dgram_running b w :=
  mkWorld (connections w) (info_listening w) b
    (dgram_bound w) (dgram_queue w)
    (dgram_once_listening w) (dgram_sending w) (heap w) (promises w)
    (connecting w) (trace w).
Definition set_dgram_bound b w :=
  mkWorld (connections w) (info_listening w) (dgram_running w)
    b (dgram_queue w)
    (dgram_once_listening w) (dgram_sending w) (heap w) (promises w)
    (connecting w) (trace w).
Definition set_dgram_queue q w :=
  mkWorld (connections w) (info_listening w) (dgram_running w)
    (dgram_bound w) q
    (dgram_once_listening w) (dgram_sending w) (heap w) (promises w)
    (connecting w) (trace w).
Definition set_dgram_once_listening f w :=
  mkWorld (connections w) (info_listening w) (dgram_running w)
    (dgram_bound w) (dgram_queue w)
    (f (dgram_once_listening w)) (dgram_sending w) (heap w) (promises w)
    (connecting w) (trace w).
Definition set_dgram_sending f w :=
  mkWorld (connections w) (info_listening w) (dgram_running w)
    (dgram_bound w) (dgram_queue w)
    (dgram_once_listening w) (f (dgram_sending w)) (heap w) (promises w)
    (connecting w) (trace w).
Definition set_heap f w :=
  mkWorld (connections w) (info_listening w) (dgram_running w)
    (dgram_bound w) (dgram_queue w)
    (dgram_once_listening w) (dgram_sending w) (f (heap w)) (promises w)
    (connecting w) (trace w).
Definition set_promises f w :=
  mkWorld (connections w) (info_listening w) (dgram_running w)
    (dgram_bound w) (dgram_queue w)
    (dgram_once_listening w) (dgram_sending w) (heap w) (f (promises w))
    (connecting w) (trace w).
Definition set_connecting f w :=
  mkWorld (connections w) (info_listening w) (dgram_running w)
    (dgram_bound w) (dgram_queue w)
    (dgram_once_listening w) (dgram_sending w) (heap w) (promises w)
    (f (connecting w)) (trace w).
Definition log (e : Effect) w :=
  mkWorld (connections w) (info_listening w) (dgram_running w)
    (dgram_bound w) (dgram_queue w)
    (dgram_once_listening w) (dgram_sending w) (heap w) (promises w)
    (connecting w) (trace w ++ [e]).

(** ** Handlers as state transformers that may throw *)

Definition M (A : Type) : Type := World -> outcome A * World.

Definition ret {A} (a : A) : M A := fun w => (Returns a, w).
Definition throw {A} (e : Error) : M A := fun w => (Throws e, w).
Definition bind {A B} (m : M A) (k : A -> M B) : M B :=
  fun w => match m w with
           | (Returns a, w') => k a w'
           | (Throws e, w') => (Throws e, w')
           end.
Definition gets {A} (f : World -> A) : M A := fun w => (Returns (f w), w).
Definition modify (f : World -> World) : M unit := fun w => (Returns tt, f w).

(** [try { m } catch (e) { ... }]: the outcome of [m] as a value. *)
Definition try_catch {A} (m : M A) : M (outcome A) :=
  fun w => let (r, w') := m w in (Returns r, w').

Notation "'let*' x := m 'in' k" := (bind m (fun x => k))
  (at level 10, x pattern, m at level 100, k at level 200).
Notation "m ;;; k" := (bind m (fun _ => k))
  (at level 100, k at level 200, right associativity).

Fixpoint for_each {A} (l : list A) (body : A -> M unit) : M unit :=
  match l with
  | [] => ret tt
  | a :: l' => body a;;; for_each l' body
  end.

(** The world after a handler, and what it returned or threw. *)
Definition exec {A} (m : M A) (w : World) : World := snd (m w).
Definition result {A} (m : M A) (w : World) : outcome A := fst (m w).
(** What a handler added to the trace. *)
Definition effects {A} (m : M A) (w : World) : list Effect :=
  drop (length (trace w)) (trace (exec m w)).

(** ** Primitives *)

(** [this.emit(...)] on the [Socket].  Listeners belong to the caller; they
    are taken to be installed and to return normally, so that emitting is
    recording the event. *)
Definition emit (e : SocketEvent) : M unit := modify (log (SocketEmit e)).

(** [connection.emit(...)]. *)
Definition connection_emit (c : loc) (e : ConnectionEvent) : M unit :=
  modify (log (ConnectionEmit c e)).

(** [v instanceof Connection], for what a lookup in [this.connections]
    gave: the object behind the reference, when there is one. *)
Definition instanceof_Connection (v : option loc) : M (option (loc * Connection)) :=
  gets (fun w => match v with
                 | Some l => match heap w !! l with
                             | Some c => Some (l, c)
                             | None => None
                             end
                 | None => None
                 end).

Definition Js_to_option {A} (v : Js A) : option A :=
  match v with
  | Instance a => Some a
  | Foreign => None
  end.

(** A method call on a [Connection]: the call is recorded, the state of
    the object becomes what the method leaves.  Calling a method on what is
    not an object throws a [TypeError]. *)
Definition call {A} (c : loc) (e : Effect) (method : ConnState -> A * ConnState)
  : M A :=
  fun w =>
    match heap w !! c with
    | Some o =>
        let (a, s) := method (conn_state o) in
        (Returns a,
         log e (set_heap
                  (fun h => <[c := mkConnection (conn_id o) (conn_ip o) (conn_port o) s]> h)
                  w))
    | None => (Throws (TypeError "not an object"%string), w)
    end.

(** Modelled from the spec: the constructor of [Connection]
    ([connection.ts] is not among the sources),
    [new Connection(this, details, options)]: "id (derived deterministically
    from address+port ...)", with [hashAddress], which is how [receive]
    computes the key of a datagram; [ip] and [port] are those of [details].
    The new object is allocated at the end of the heap. *)
Definition Connection_new (details : IConnectionDetails) (options : IConnectionOptions)
  : M (loc * Connection) :=
  let c := mkConnection (hashAddress (details_ip details) (details_port details))
             (details_ip details) (details_port details)
             (Connection_init details options) in
  let* l := gets (fun w => length (heap w)) in
  modify (set_heap (fun h => h ++ [c]));;;
  ret (l, c).

(** [connection.sequence]. *)
Definition get_sequence (c : loc) : M Z :=
  call c (Get_sequence c) Connection_sequence.

(** [connection.recieve(packet)]. *)
Definition recieve (c : loc) (packet : Packet) : M bool :=
  call c (Call_recieve c packet) (Connection_recieve packet).

(** [connection.kill(err)], which may throw. *)
Definition kill (c : loc) (err : option Error) : M unit :=
  let* thrown := call c (Call_kill c err) (Connection_kill err) in
  match thrown with
  | Some e => throw e
  | None => ret tt
  end.

(** [connection.store(...)], which may throw. *)
Definition store (c : loc) (s : IPacketStore) : M unit :=
  let* thrown := call c (Call_store c s) (Connection_store s) in
  match thrown with
  | Some e => throw e
  | None => ret tt
  end.

(** [conn.connect().catch((e) => { this.emit('error', e) })]: the call
    returns a promise, pending when it is returned, and the handler is
    attached to it; [connecting] holds exactly these promises. *)
Definition connect_catch (c : loc) : M unit :=
  let* p := gets (fun w => length (connecting w)) in
  call c (Call_connect c p) (fun s => (tt, Connection_connect s));;;
  modify (set_connecting (fun ps => ps ++ [Pending])).

(** [Packet.FROM(buffer)]. *)
Definition FROM (buffer : Buffer) : M Packet :=
  modify (log (Call_FROM buffer));;;
  match Packet_FROM buffer with
  | inl e => throw e
  | inr packet => ret packet
  end.

(** [packet.serialize()]. *)
Definition serialize (packet : Packet) : M Buffer :=
  modify (log (Call_serialize packet));;;
  match Packet_serialize packet with
  | inl e => throw e
  | inr buffer => ret buffer
  end.

(** [new Promise(...)]: a fresh pending promise. *)
Definition new_promise : M pid :=
  let* p := gets (fun w => length (promises w)) in
  modify (set_promises (fun ps => ps ++ [Pending]));;;
  ret p.

(** Settling a promise: nothing happens when it is already settled. *)
Definition settle (p : pid) (s : Promise IPacketResponse) : M unit :=
  modify (set_promises (fun ps => match ps !! p with
                                  | Some Pending => <[p := s]> ps
                                  | _ => ps
                                  end)).
Definition res (p : pid) (v : IPacketResponse) : M unit := settle p (Fulfilled v).
Definition rej (p : pid) (e : Error) : M unit := settle p (Rejected e).

(** *** The UDP socket ([dgram.Socket])

    The constructor binds the socket, and the socket is bound when it
    emits ['listening'].  Until then [dgram] keeps the sends it is given in
    a queue, which it makes for the first of them; while there is a queue,
    [close] is put in it too.  The queue goes when the socket emits
    ['listening'], which runs the calls in it, or ['error'], which drops
    them. *)

(** A call is put in the queue, which is made when there is none. *)
Definition dgram_enqueue (q : Queued) : M unit :=
  modify (fun w => set_dgram_queue (Some (default [] (dgram_queue w) ++ [q])) w).

(** [socket.send(...)]: it throws [ERR_SOCKET_DGRAM_NOT_RUNNING] when the
    socket has no handle; otherwise the datagram is sent, or queued when
    the socket is not bound, and the callback is called later in both
    cases.  (It also throws for a port outside 1 to 65535: the connections
    are taken to have a port in that range.) *)
Definition dgram_send (buffer : Buffer) (offset len : nat) (port : Z) (ip : string)
  (callback : SendCallback) : M unit :=
  modify (log (Dgram_send buffer offset len port ip));;;
  let* running := gets dgram_running in
  if running
  then
    modify (set_dgram_sending (fun q => q ++ [Some callback]));;;
    let* bound := gets dgram_bound in
    if bound
    then ret tt
    else dgram_enqueue Queued_send
  else throw ERR_SOCKET_DGRAM_NOT_RUNNING.

(** [socket.close()]: while there is a queue the call is put in it and
    returns; otherwise it throws [ERR_SOCKET_DGRAM_NOT_RUNNING] when the
    socket has no handle, and releases the handle when it has one. *)
Definition dgram_close : M unit :=
  modify (log Dgram_close);;;
  let* queue := gets dgram_queue in
  match queue with
  | Some _ => dgram_enqueue Queued_close
  | None =>
      let* running := gets dgram_running in
      if running
      then modify (set_dgram_running false)
      else throw ERR_SOCKET_DGRAM_NOT_RUNNING
  end.

(** The queue is run, by the listener [dgram] adds to ['listening'] when
    it makes the queue: the queue is gone, the sends in it go out, and a
    [close] in it releases the handle.  (A call that comes after a [close]
    in the queue finds no handle and throws from that listener: this is
    left out.) *)
Definition dgram_clear_queue : M unit :=
  let* queue := gets dgram_queue in
  modify (set_dgram_queue None);;;
  if existsb is_queued_close (default [] queue)
  then modify (set_dgram_running false)
  else ret tt.

Definition dgram_once_listening_add (c : loc) : M unit :=
  modify (log (Dgram_once_listening c));;;
  modify (set_dgram_once_listening (fun q => q ++ [c])).

(** ** The class [Socket] *)

(** The constructor: no connection, not listening, a UDP socket just
    created and being bound. *)
Definition Socket_new : World :=
  mkWorld [] false true false None [] [] [] [] [] [].

(** The getter [listening]. *)
Definition listening : M bool := gets info_listening.

(** [connection(details, options, connect)]. *)
Definition Socket_connection (details : IConnectionDetails)
  (options : IConnectionOptions) (connect : bool) : M loc :=
  let* (conn, c) := Connection_new details options in
  let* existing := gets (fun w => obj_get (connections w) (conn_id c)) in
  match existing with
  | Some _ => throw ConnectionExists
  | None =>
      (if connect
       then
         let* l := listening in
         if l
         then connect_catch conn
         else dgram_once_listening_add conn
       else ret tt);;;
      modify (set_connections (fun o => obj_set o (conn_id c) conn));;;
      ret conn
  end.

(** [receive(buffer, info)]. *)
Definition Socket_receive (buffer : Buffer) (info : RemoteInfo) : M unit :=
  let id := hashAddress (address info) (port info) in
  let* found := gets (fun w => obj_get (connections w) id) in
  let* connection := instanceof_Connection found in
  match connection with
  | None => emit (Ev_error (UnknownConnection id (address info) (port info)))
  | Some (connection, _) =>
      let* decoded := try_catch (FROM buffer) in
      match decoded with
      | Throws e =>
          emit (Ev_error e);;;
          connection_emit connection (CEv_error e)
      | Returns packet =>
          if negb (valid packet)
          then
            emit (Ev_error InvalidPacket);;;
            connection_emit connection (CEv_error InvalidPacket)
          else
            let* resolved := recieve connection packet in
            emit (Ev_received resolved packet buffer connection info);;;
            connection_emit connection (CEv_received resolved packet buffer info)
      end
  end.

(** The packet after the assignment of [send]: [packet.sequence] is
    written in place, so the caller's packet, the packet serialized and the
    packet the callback captures are this one. *)
Definition assign_sequence (connection : loc) (packet : Packet) : M Packet :=
  if PacketType_eqb (type packet) Command && (sequence packet <? 0)
  then
    let* s := get_sequence connection in
    ret (set_sequence s packet)
  else ret packet.

(** The executor of the promise [send] returns. *)
Definition send_executor (connection : Js loc) (packet : Js Packet)
  (resolve : bool) (p : pid) : M unit :=
  match packet with
  | Foreign => rej p (TypeError "packet must be an instance of BEPacket"%string)
  | Instance packet =>
      if negb (valid packet)
      then rej p InvalidPacket
      else
        let* conn := instanceof_Connection (Js_to_option connection) in
        match conn with
        | None =>
            rej p (TypeError "connection must be an instance of Connection"%string)
        | Some (connection, c) =>
            let* packet := assign_sequence connection packet in
            let* serialized := try_catch (serialize packet) in
            match serialized with
            | Throws e => rej p e
            | Returns buffer =>
                dgram_send buffer 0 (length buffer) (conn_port c) (conn_ip c)
                  (mkSendCallback packet buffer connection resolve p)
            end
        end
  end.

(** [send(connection, packet, resolve)]: an executor that throws rejects
    its promise. *)
Definition Socket_send (connection : Js loc) (packet : Js Packet)
  (resolve : bool) : M pid :=
  let* p := new_promise in
  let* ran := try_catch (send_executor connection packet resolve p) in
  match ran with
  | Throws e => rej p e
  | Returns _ => ret tt
  end;;;
  ret p.

(** The callback of [socket.send], called with [(err, bytes)]: [inl err]
    when [err] is not [null]. *)
Definition send_callback (cb : SendCallback) (r : Error + Z) : M unit :=
  match r with
  | inl err => rej (cb_promise cb) err
  | inr nbytes =>
      emit (Ev_sent (cb_packet cb) (cb_buffer cb) nbytes (cb_connection cb));;;
      if cb_resolve cb
      then
        let* stored := try_catch (store (cb_connection cb)
                              (mkStore (cb_packet cb) nbytes (cb_promise cb))) in
        match stored with
        | Throws e => rej (cb_promise cb) e
        | Returns _ => ret tt
        end
      else
        res (cb_promise cb)
          (mkResponse nbytes (cb_packet cb) None (cb_connection cb))
  end.

(** [close(err)]: the body of its loop, for one key, then the method. *)
Definition close_connection (err : option Error) (id : string) : M unit :=
  let* found := gets (fun w => obj_get (connections w) id) in
  let* connection := instanceof_Connection found in
  match connection with
  | Some (connection, _) => kill connection err
  | None => ret tt
  end.

Definition Socket_close (err : option Error) : M unit :=
  let* keys := gets (fun w => obj_keys (connections w)) in
  for_each keys (close_connection err);;;
  dgram_close.

(** The listeners the constructor installs on the UDP socket. *)
Definition on_error (err : Error) : M unit :=
  modify (set_info_listening false);;;
  emit (Ev_error err);;;
  Socket_close (Some err).

Definition on_listening : M unit :=
  modify (set_info_listening true);;;
  emit Ev_listening.

Definition on_close : M unit :=
  modify (set_info_listening false).

(** ** Steps of the runtime *)

(** The UDP socket emits ['listening'], now that it is bound: the listener
    of the constructor runs, then the listeners added with [once], each
    removed as it runs.  The listener of [dgram] that runs the queue is one
    of these; what the listeners of the [Socket] do does not depend on the
    UDP socket, and it comes last here. *)
Definition dgram_emit_listening : M unit :=
  modify (set_dgram_bound true);;;
  on_listening;;;
  let* once := gets dgram_once_listening in
  modify (set_dgram_once_listening (fun _ => []));;;
  for_each once connect_catch;;;
  dgram_clear_queue.

(** The UDP socket emits ['error']: the listener of [dgram] that drops
    the queue runs before every other, then the listener of the
    constructor. *)
Definition dgram_emit_error (err : Error) : M unit :=
  modify (set_dgram_queue None);;;
  on_error err.

(** The UDP socket emits ['close']. *)
Definition dgram_emit_close : M unit := on_close.

(** The UDP socket emits ['message']. *)
Definition dgram_emit_message (buffer : Buffer) (info : RemoteInfo) : M unit :=
  Socket_receive buffer info.

(** The send numbered [k] completes: its callback is called, once. *)
Definition dgram_send_done (k : nat) (r : Error + Z) : M unit :=
  let* slot := gets (fun w => dgram_sending w !! k) in
  match slot with
  | Some (Some cb) =>
      modify (set_dgram_sending (fun q => <[k := None]> q));;;
      send_callback cb r
  | _ => ret tt
  end.

(** A promise that [connect] returned settles; when it is rejected, the
    handler attached by [Socket.connection] runs. *)
Definition connect_settled (p : pid) (r : Error + unit) : M unit :=
  let* st := gets (fun w => connecting w !! p) in
  match st with
  | Some Pending =>
      match r with
      | inl e =>
          modify (set_connecting (fun ps => <[p := Rejected e]> ps));;;
          emit (Ev_error e)
      | inr _ =>
          modify (set_connecting (fun ps => <[p := Fulfilled tt]> ps))
      end
  | _ => ret tt
  end.
(** ** Notions the properties are stated with *)

(** The [Connection] registered under a key: what [this.connections[id]]
    gives when it is an instance of [Connection]. *)
Definition registered (w : World) (id : string) : option loc :=
  match obj_get (connections w) id with
  | Some l => match heap w !! l with
              | Some _ => Some l
              | None => None
              end
  | None => None
  end.

(** [kill(err)] returns, whatever the state of the connection: it does
    not throw. *)
Definition kill_returns (err : option Error) : Prop :=
  forall s, fst (Connection_kill err s) = None.

(** The registered connections, in the order of [Object.keys]. *)
Definition registered_connections (w : World) : list loc :=
  omap (registered w) (obj_keys (connections w)).

(** References held by the [Socket] and by the listeners it added point
    into the heap. *)
Definition wf (w : World) : Prop :=
  Forall (fun l => (l < length (heap w))%nat)
    (dgram_once_listening w ++ map snd (connections w)).
(** Every send in flight has its own promise, and that promise is
    pending: only the callback of the send settles it. *)
Definition in_flight (w : World) : Prop :=
  forall k cb,
    dgram_sending w !! k = Some (Some cb) ->
    promises w !! cb_promise cb = Some Pending
    /\ forall k' cb',
         dgram_sending w !! k' = Some (Some cb') ->
         cb_promise cb' = cb_promise cb -> k' = k.

(** A handler that stays within a relation between the world before it and
    the world after it. *)
Definition framed (R : World -> World -> Prop) {A} (m : M A) : Prop :=
  forall w, R w (exec m w).

(** The registry and the listeners of the UDP socket are left alone, and
    no object of the heap is lost. *)
Definition registry_frame (w w' : World) : Prop :=
  connections w' = connections w
  /\ dgram_once_listening w' = dgram_once_listening w
  /\ (length (heap w) <= length (heap w'))%nat.

(** The promises of [send] and the sends in flight are left alone. *)
Definition sends_frame (w w' : World) : Prop :=
  promises w' = promises w /\ dgram_sending w' = dgram_sending w.

(** ** Runs *)

(** What can happen next: a method of the [Socket] is called, by its user
    or by a [Connection], or the runtime delivers an event. *)
Inductive Action :=
| Do_connection (details : IConnectionDetails) (options : IConnectionOptions)
                (connect : bool)
| Do_send (connection : Js loc) (packet : Js Packet) (resolve : bool)
| Do_close (err : option Error)
| On_message (buffer : Buffer) (info : RemoteInfo)
| On_listening
| On_error (err : Error)
| On_close
| On_sent (k : nat) (r : Error + Z)
| On_connect_settled (p : pid) (r : Error + unit).

Definition perform (a : Action) (w : World) : World :=
  match a with
  | Do_connection details options connect =>
      exec (Socket_connection details options connect) w
  | Do_send connection packet resolve =>
      exec (Socket_send connection packet resolve) w
  | Do_close err => exec (Socket_close err) w
  | On_message buffer info => exec (dgram_emit_message buffer info) w
  | On_listening => exec dgram_emit_listening w
  | On_error err => exec (dgram_emit_error err) w
  | On_close => exec dgram_emit_close w
  | On_sent k r => exec (dgram_send_done k r) w
  | On_connect_settled p r => exec (connect_settled p r) w
  end.

(** The worlds a [Socket] can be in. *)
Inductive reachable : World -> Prop :=
| reachable_new : reachable Socket_new
| reachable_step (w : World) (a : Action) :
    reachable w -> reachable (perform a w).
(** A run: the actions performed in turn. *)
Definition perform_all (actions : list Action) (w : World) : World :=
  fold_left (fun w a => perform a w) actions w.

(** The registry as [connection] builds it: no key twice, no [Connection]
    under two keys, and every entry is an object of the heap whose [id] is
    its key, the hash of its own address and port. *)
Definition registry_ok (w : World) : Prop :=
  NoDup (obj_keys (connections w))
  /\ NoDup (map snd (connections w))
  /\ forall id l, In (id, l) (connections w) ->
       exists c, heap w !! l = Some c
                 /\ conn_id c = id
                 /\ id = hashAddress (conn_ip c) (conn_port c).

(** The registry is left as it is. *)
Definition connections_frame (w w' : World) : Prop :=
  connections w' = connections w.

(** The flag [info.listening] is left as it is. *)
Definition listening_frame (w w' : World) : Prop :=
  info_listening w' = info_listening w.

(** Every object of the heap is still there, with the same [id], [ip] and
    [port]. *)
Definition objects_frame (w w' : World) : Prop :=
  forall l c, heap w !! l = Some c ->
    exists c', heap w' !! l = Some c'
               /\ conn_id c' = conn_id c
               /\ conn_ip c' = conn_ip c
               /\ conn_port c' = conn_port c.

(** The calls of [connect] made for the listeners added with [once], in
    their order: the promises of the calls are numbered from [p] on. *)
Definition deferred_connects (once : list loc) (p : pid) : list Effect :=
  map (fun lp => Call_connect (fst lp) (snd lp))
    (combine once (seq p (length once))).
(** How many times [connect] was called on the connection [l] in a trace,
    and how many listeners added with [once] wait to call it. *)
Definition is_connect (e : Effect) : bool :=
  match e with
  | Call_connect _ _ => true
  | _ => false
  end.

Fixpoint connects (l : loc) (t : list Effect) : nat :=
  match t with
  | [] => 0
  | Call_connect c _ :: t' => (if Nat.eqb c l then 1 else 0) + connects l t'
  | _ :: t' => connects l t'
  end.

Fixpoint deferred (l : loc) (once : list loc) : nat :=
  match once with
  | [] => 0
  | c :: once' => (if Nat.eqb c l then 1 else 0) + deferred l once'
  end.

(** For each [Connection], [connect] was called or is deferred, not both
    and not twice; for what is not yet an object, neither. *)
Definition connect_once (w : World) : Prop :=
  forall l,
    (connects l (trace w) + deferred l (dgram_once_listening w)
     <= if Nat.ltb l (length (heap w)) then 1 else 0)%nat.

(** A handler that calls no [connect], leaves the listeners of the UDP
    socket alone and loses no object. *)
Definition no_connect_frame (w w' : World) : Prop :=
  dgram_once_listening w' = dgram_once_listening w
  /\ (length (heap w) <= length (heap w'))%nat
  /\ exists es, trace w' = trace w ++ es
                /\ forallb (fun e => negb (is_connect e)) es = true.

(** What the loop of [close] leaves as it is: everything but the trace and
    the state of the connections. *)
Definition kills_frame (w w' : World) : Prop :=
  connections w' = connections w
  /\ length (heap w') = length (heap w)
  /\ info_listening w' = info_listening w
  /\ dgram_running w' = dgram_running w
  /\ dgram_bound w' = dgram_bound w
  /\ dgram_queue w' = dgram_queue w
  /\ dgram_once_listening w' = dgram_once_listening w.

(** What [close] on the UDP socket does, from the world [w] it is called
    in: with a queue, the call is queued and returns; without one, the
    handle is released, or the call throws when there is none. *)
Definition dgram_closed (w : World) (r : outcome unit) (w' : World) : Prop :=
  match dgram_queue w with
  | Some q =>
      r = Returns tt
      /\ dgram_queue w' = Some (q ++ [Queued_close])
      /\ dgram_running w' = dgram_running w
  | None =>
      r = (if dgram_running w
           then Returns tt
           else Throws ERR_SOCKET_DGRAM_NOT_RUNNING)
      /\ dgram_queue w' = None
      /\ dgram_running w' = false
  end.
End Transport.





Notation "'let*' x := m 'in' k" := (bind m (fun x => k))
  (at level 10, x pattern, m at level 100, k at level 200).
Notation "m ;;; k" := (bind m (fun _ => k))
  (at level 100, k at level 200, right associativity).

(** ** An implementation of the collaborators

    The handlers above run on any implementation of [utils], [packet] and
    [connection].  The one below follows the description of the protocol,
    and serves to run them on concrete datagrams. *)

(** Modelled from the spec: [utils.hashAddress] ([utils.ts] is not among the
    sources): "id (derived deterministically from address+port)".  Here, the
    address, a colon and the port in decimal. *)
Definition hash_address (ip : string) (port : Z) : string :=
  (ip ++ ":" ++ DecimalString.NilZero.string_of_int (Z.to_int port))%string.

#[global] Instance spec_utils : Utils := {| hashAddress := hash_address |}.

(** The 32-bit cyclic redundancy check (reflected polynomial [0xEDB88320]),
    bit by bit. *)
Definition crc32_bit (c : Z) : Z :=
  if Z.testbit c 0
  then Z.lxor (Z.shiftr c 1) 0xEDB88320
  else Z.shiftr c 1.

Definition crc32_byte (c : Z) (b : Byte.byte) : Z :=
  Nat.iter 8 crc32_bit (Z.lxor c (Z.of_N (Byte.to_N b))).

Definition crc32 (data : Buffer) : Z :=
  Z.lxor (fold_left crc32_byte data 0xFFFFFFFF) 0xFFFFFFFF.

Definition byte_of_Z (z : Z) : Byte.byte :=
  match Byte.of_N (Z.to_N (z mod 256)) with
  | Some b => b
  | None => Byte.x00
  end.

(** Four bytes, least significant first. *)
Definition uint32_bytes (z : Z) : Buffer :=
  [byte_of_Z z; byte_of_Z (Z.shiftr z 8); byte_of_Z (Z.shiftr z 16);
   byte_of_Z (Z.shiftr z 24)].

Definition uint32_of_bytes (b0 b1 b2 b3 : Byte.byte) : Z :=
  Z.of_N (Byte.to_N b0) + Z.shiftl (Z.of_N (Byte.to_N b1)) 8
  + Z.shiftl (Z.of_N (Byte.to_N b2)) 16 + Z.shiftl (Z.of_N (Byte.to_N b3)) 24.

Definition kind_byte (t : PacketType) : Byte.byte :=
  match t with
  | Login => Byte.x00
  | Command => Byte.x01
  | Message => Byte.x02
  end.

Definition DecodeError : Error := Thrown "DecodeError" "malformed length".

(** Modelled from the spec: the packet codec ([packet.ts] is not among the
    sources).  A frame is "[preamble marker][checksum:4 bytes][kind:1
    byte][sequence:1 byte, only for Command/Message][payload bytes]", the
    checksum is the 32-bit cyclic redundancy check of what follows it;
    [decode] "sets valid to whether it matches the transmitted checksum; on
    any malformed length, it raises a DecodeError".  The marker is the two
    letters BE, the checksum is stored least significant byte first, and a
    kind byte that is none of the three kinds is read as a [Message]. *)
Definition decode (frame : Buffer) : Error + Packet :=
  match frame with
  | _ :: _ :: c0 :: c1 :: c2 :: c3 :: kind :: rest =>
      let ok := uint32_of_bytes c0 c1 c2 c3 =? crc32 (kind :: rest) in
      match kind, rest with
      | Byte.x00, _ => inr (mkPacket Login (-1) ok rest)
      | Byte.x01, s :: body => inr (mkPacket Command (Z.of_N (Byte.to_N s)) ok body)
      | _, s :: body => inr (mkPacket Message (Z.of_N (Byte.to_N s)) ok body)
      | _, [] => inl DecodeError
      end
  | _ => inl DecodeError
  end.

Definition encode (p : Packet) : Error + Buffer :=
  let region :=
    match type p with
    | Login => kind_byte Login :: payload p
    | t => kind_byte t :: byte_of_Z (sequence p) :: payload p
    end in
  inr ([Byte.x42; Byte.x45] ++ uint32_bytes (crc32 region) ++ region).

#[global] Instance spec_codec : PacketCodec :=
  {| Packet_FROM := decode; Packet_serialize := encode |}.

(** Modelled from the spec: the class [Connection] ([connection.ts] is not
    among the sources): a state among Disconnected, LoggingIn and Connected,
    a "sequenceCounter (monotonic mod 256, assigned to each new outbound
    Command)" and the table "pending (mapping sequence to PendingCommand)".
    [connect] enters LoggingIn; [store] "stores a PendingCommand keyed by
    sequence"; [recieve] resolves the pending command a Command response
    matches; [kill] "forces immediate transition to Disconnected from any
    state, clearing all pending". *)
Inductive State := Disconnected | LoggingIn | Connected.

Record SpecConnection := mkSpecConnection {
  state : State;
  sequenceCounter : Z;
  pending : list (Z * IPacketStore)
}.

Definition spec_recieve (p : Packet) (c : SpecConnection) : bool * SpecConnection :=
  match type p with
  | Command =>
      (existsb (fun e => fst e =? sequence p) (pending c),
       mkSpecConnection (state c) (sequenceCounter c)
         (filter (fun e => negb (fst e =? sequence p)) (pending c)))
  | Login => (true, mkSpecConnection Connected (sequenceCounter c) (pending c))
  | Message => (false, c)
  end.

#[global] Instance spec_connection : ConnectionImpl := {|
  ConnState := SpecConnection;
  IConnectionOptions := unit;
  Connection_init := fun _ _ => mkSpecConnection Disconnected 0 [];
  Connection_connect := fun c =>
    mkSpecConnection LoggingIn (sequenceCounter c) (pending c);
  Connection_recieve := spec_recieve;
  Connection_store := fun s c =>
    (None, mkSpecConnection (state c) (sequenceCounter c)
             ((sequence (store_packet s), s) :: pending c));
  Connection_kill := fun _ c =>
    (None, mkSpecConnection Disconnected (sequenceCounter c) []);
  Connection_sequence := fun c =>
    (sequenceCounter c,
     mkSpecConnection (state c) ((sequenceCounter c + 1) mod 256) (pending c))
|}.

(** A server, a well-formed login frame and a command packet to send. *)
Definition server : IConnectionDetails := mkDetails "10.0.0.1" 2302 "secret".
Definition server_info : RemoteInfo := mkRemoteInfo "10.0.0.1" 2302 0.
Definition stranger_info : RemoteInfo := mkRemoteInfo "10.0.0.9" 2302 0.
Definition players : Packet := mkPacket Command (-1) true [Byte.x70].

Definition no_options : @IConnectionOptions spec_connection := tt.

(** The [Connection] to [server], once [connect] was called on it. *)
Definition server_connection : @Connection spec_connection :=
  @mkConnection spec_connection "10.0.0.1:2302" "10.0.0.1" 2302
    (mkSpecConnection LoggingIn 0 []).

(** A packet with a bad checksum, as the decoder gives it. *)
Definition corrupt : Packet := mkPacket Command 3 false [Byte.x70].

(** The frame of [players] once it has the sequence 0. *)
Definition players_frame : Buffer :=
  match encode (set_sequence 0 players) with
  | inr frame => frame
  | inl _ => []
  end.

(** The same frame with its last byte changed: the checksum does not match
    any more. *)
Definition corrupt_frame : Buffer := firstn 8 players_frame ++ [Byte.x71].

(** The closure of the send of [players], untracked, to the connection 0,
    on the promise 0. *)
Definition players_callback : SendCallback :=
  mkSendCallback (set_sequence 0 players) players_frame 0%nat false 0%nat.

(** A new [Socket] on which the connection to [server] was asked for; the
    same once the UDP socket listens; the same once [players] was sent,
    untracked. *)
Definition world_registered : World :=
  exec (Socket_connection server no_options true) Socket_new.
Definition world_listening : World :=
  exec dgram_emit_listening world_registered.
Definition world_sending : World :=
  exec (Socket_send (Instance 0%nat) (Instance players) false) world_listening.

(** A codec whose serializer can throw, to run [send] where [serialize]
    fails: it refuses a sequence that does not fit the one byte of the
    frame, the way writing it into a [Buffer] does. *)
Definition encode_checked (p : Packet) : Error + Buffer :=
  match type p with
  | Login => encode p
  | _ =>
      if (sequence p <? 0) || (255 <? sequence p)
      then inl (Thrown "RangeError" "sequence out of range")
      else encode p
  end.

Definition checked_codec : PacketCodec :=
  {| Packet_FROM := decode; Packet_serialize := encode_checked |}.

(** A message packet whose sequence does not fit one byte. *)
Definition oversized : Packet := mkPacket Message 300 true [].

(** The [Connection] to [server] once it was killed, and once its getter
    [sequence] was read. *)
Definition killed_connection : @Connection spec_connection :=
  @mkConnection spec_connection "10.0.0.1:2302" "10.0.0.1" 2302
    (mkSpecConnection Disconnected 0 []).
Definition sequenced_connection : @Connection spec_connection :=
  @mkConnection spec_connection "10.0.0.1:2302" "10.0.0.1" 2302
    (mkSpecConnection LoggingIn 1 []).

(** The new [Socket] with the connection to [server] registered, once
    [players] was sent before the UDP socket is bound: the send waits in
    the queue. *)
Definition world_queued : World :=
  exec (Socket_send (Instance 0%nat) (Instance players) false) world_registered.





(** The send of [players], tracked this time, and its closure. *)
Definition world_tracking : World :=
  exec (Socket_send (Instance 0%nat) (Instance players) true) world_listening.
Definition tracked_callback : SendCallback :=
  mkSendCallback (set_sequence 0 players) players_frame 0%nat true 0%nat.

(** * Properties *)

Section Properties.
Context {U : Utils} {PC : PacketCodec} {CI : ConnectionImpl}.

(** ** Lists and objects *)

Lemma lookup_snoc {A} (l : list A) (a : A) : (l ++ [a]) !! length l = Some a.
Proof.
  induction l as [|b l IH]; simpl; [reflexivity | exact IH].
Qed.

Lemma insert_snoc {A} (l : list A) (a b : A) :
  <[length l := b]> (l ++ [a]) = l ++ [b].
Proof.
  induction l as [|c l IH]; simpl; [reflexivity | now rewrite IH].
Qed.

Lemma obj_set_absent {V} (o : list (string * V)) k v :
  obj_get o k = None -> obj_set o k v = o ++ [(k, v)].
Proof.
  induction o as [|[k' v'] o IH]; simpl; intros Hget; [reflexivity|].
  destruct (String.eqb k' k); [discriminate|].
  now rewrite IH.
Qed.

Lemma obj_get_set {V} (o : list (string * V)) k v :
  obj_get (obj_set o k v) k = Some v.
Proof.
  induction o as [|[k' v'] o IH]; simpl.
  - now rewrite String.eqb_refl.
  - destruct (String.eqb k' k) eqn:E; simpl.
    + now rewrite String.eqb_refl.
    + now rewrite E.
Qed.

Lemma obj_get_set_other {V} (o : list (string * V)) k k' v :
  k' <> k -> obj_get (obj_set o k v) k' = obj_get o k'.
Proof.
  intros Hne.
  induction o as [|[k0 v0] o IH]; simpl.
  - destruct (String.eqb_spec k k'); [congruence | reflexivity].
  - destruct (String.eqb_spec k0 k) as [->|]; simpl.
    + destruct (String.eqb_spec k k'); [congruence | reflexivity].
    + destruct (String.eqb k0 k'); [reflexivity | exact IH].
Qed.


(** ** The trace *)

Lemma effects_log {A} (m : M A) (w : World) (es : list Effect) :
  trace (exec m w) = trace w ++ es -> effects m w = es.
Proof.
  unfold effects. intros ->. apply drop_app_length.
Qed.

(** Running a handler: unfold the plumbing, then compute. *)
Ltac run :=
  unfold exec, result, bind, ret, gets, modify, throw, try_catch, emit,
    connection_emit, listening; cbn.

(** C5. A datagram from an address under which no [Connection] is
    registered: [receive] returns after emitting one [UnknownConnection]
    error on the [Socket] and nothing else. It does not call the decoder,
    emits nothing on any [Connection], and leaves the registry and every
    [Connection] as they were. *)
Theorem C5_receive_unknown_connection (buffer : Buffer) (info : RemoteInfo)
  (w : World) :
  let id := hashAddress (address info) (port info) in
  registered w id = None ->
  Socket_receive buffer info w
  = (Returns tt,
     log (SocketEmit (Ev_error (UnknownConnection id (address info) (port info)))) w)
  /\ effects (Socket_receive buffer info) w
     = [SocketEmit (Ev_error (UnknownConnection id (address info) (port info)))]
  /\ ~ In (Call_FROM buffer) (effects (Socket_receive buffer info) w)
  /\ connections (exec (Socket_receive buffer info) w) = connections w
  /\ heap (exec (Socket_receive buffer info) w) = heap w.
Proof.
  intros id Hreg.
  assert (Hrun : Socket_receive buffer info w
    = (Returns tt,
       log (SocketEmit (Ev_error (UnknownConnection id (address info) (port info)))) w)).
  { unfold Socket_receive, instanceof_Connection, registered in *. fold id. run.
    destruct (obj_get (connections w) id) as [l|]; [|reflexivity].
    destruct (heap w !! l); [discriminate | reflexivity]. }
  assert (Heff : effects (Socket_receive buffer info) w
     = [SocketEmit (Ev_error (UnknownConnection id (address info) (port info)))]).
  { apply effects_log. unfold exec. now rewrite Hrun. }
  split; [exact Hrun|]. split; [exact Heff|].
  rewrite Heff. unfold exec. rewrite Hrun. cbn.
  repeat split; try reflexivity.
  intros [H|[]]; discriminate.
Qed.

(** C1, as the code has it. A datagram from the address of a registered
    [Connection] that the decoder rejects by throwing [e], or that decodes
    to a packet with [valid = false] (then [e] is [InvalidPacket]): after
    the call of the decoder, [receive] emits the error [e] on the [Socket],
    then on that [Connection], and returns. [recieve] is not called, and
    the registry and every [Connection] stay as they were. *)
Theorem C1_receive_invalid_datagram (buffer : Buffer) (info : RemoteInfo)
  (w : World) (connection : loc) (e : Error) :
  registered w (hashAddress (address info) (port info)) = Some connection ->
  (Packet_FROM buffer = inl e
   \/ exists packet, Packet_FROM buffer = inr packet
                     /\ valid packet = false /\ e = InvalidPacket) ->
  result (Socket_receive buffer info) w = Returns tt
  /\ effects (Socket_receive buffer info) w
     = [Call_FROM buffer; SocketEmit (Ev_error e);
        ConnectionEmit connection (CEv_error e)]
  /\ (forall packet, ~ In (Call_recieve connection packet)
                        (effects (Socket_receive buffer info) w))
  /\ connections (exec (Socket_receive buffer info) w) = connections w
  /\ heap (exec (Socket_receive buffer info) w) = heap w.
Proof.
  intros Hreg Hbad.
  assert (Hrun : Socket_receive buffer info w
    = (Returns tt,
       log (ConnectionEmit connection (CEv_error e))
         (log (SocketEmit (Ev_error e)) (log (Call_FROM buffer) w)))).
  { unfold Socket_receive, instanceof_Connection, registered, FROM in *. run.
    destruct (obj_get (connections w) _) as [l|]; [|discriminate].
    destruct (heap w !! l); [|discriminate].
    injection Hreg as ->.
    destruct Hbad as [Hthrow | (packet & Hdec & Hinv & ->)].
    - now rewrite Hthrow.
    - rewrite Hdec. cbn. now rewrite Hinv. }
  assert (Heff : effects (Socket_receive buffer info) w
     = [Call_FROM buffer; SocketEmit (Ev_error e);
        ConnectionEmit connection (CEv_error e)]).
  { apply effects_log. unfold exec. rewrite Hrun. cbn.
    now rewrite <- !app_assoc. }
  rewrite Heff. unfold exec, result. rewrite Hrun. cbn.
  repeat split; try reflexivity.
  intros packet [H|[H|[H|[]]]]; discriminate.
Qed.

(** C3. [connection(details, options, connect)], with [id] the key derived
    from the address and the port of [details]: when the registry holds an
    entry under [id] the call throws [ConnectionExists] and the registry is
    unchanged; otherwise the call returns a [Connection] that did not exist
    before, made for that address and port, and the registry is the old one
    with the single entry [id] for that [Connection] added. *)
Theorem C3_connection_registers_once (details : IConnectionDetails)
  (options : IConnectionOptions) (connect : bool) (w : World) :
  let id := hashAddress (details_ip details) (details_port details) in
  let m := Socket_connection details options connect in
  match obj_get (connections w) id with
  | Some _ =>
      result m w = Throws ConnectionExists
      /\ connections (exec m w) = connections w
  | None =>
      let conn := length (heap w) in
      result m w = Returns conn
      /\ heap w !! conn = None
      /\ connections (exec m w) = connections w ++ [(id, conn)]
      /\ obj_get (connections (exec m w)) id = Some conn
      /\ (forall k, k <> id ->
            obj_get (connections (exec m w)) k = obj_get (connections w) k)
      /\ exists c, heap (exec m w) !! conn = Some c
                   /\ conn_id c = id
                   /\ conn_ip c = details_ip details
                   /\ conn_port c = details_port details
  end.
Proof.
  intros id m.
  destruct (obj_get (connections w) id) as [l|] eqn:Hget.
  - subst m. unfold Socket_connection, Connection_new. run. fold id.
    rewrite Hget. cbn. split; reflexivity.
  - cbv zeta. subst m.
    assert (Hnew : heap w !! length (heap w) = None)
      by (apply lookup_ge_None_2; lia).
    destruct connect; [destruct (info_listening w) eqn:Hl|];
      unfold Socket_connection, Connection_new, connect_catch, call,
        dgram_once_listening_add; run; fold id;
      repeat (progress (rewrite ?Hget, ?Hl, ?insert_snoc, ?lookup_snoc; cbn));
      rewrite obj_get_set, (obj_set_absent _ _ _ Hget);
      (repeat split; try reflexivity; try exact Hnew;
       [ intros k Hk; rewrite <- (obj_set_absent _ _ _ Hget);
         now apply obj_get_set_other
       | eexists; repeat split; reflexivity ]).
Qed.

(** C4. [send] with a packet whose [valid] is false: the promise it
    returns is a new one, rejected with [InvalidPacket]; the call has no
    effect outside the [Socket] (nothing is handed to the UDP socket, no
    method of a [Connection] is called), no send is left in flight and
    every [Connection] is as it was. *)
Theorem C4_send_invalid_packet (connection : Js loc) (packet : Packet)
  (resolve : bool) (w : World) :
  valid packet = false ->
  let m := Socket_send connection (Instance packet) resolve in
  let p := length (promises w) in
  result m w = Returns p
  /\ promises w !! p = None
  /\ promises (exec m w) = promises w ++ [Rejected InvalidPacket]
  /\ effects m w = []
  /\ dgram_sending (exec m w) = dgram_sending w
  /\ heap (exec m w) = heap w.
Proof.
  intros Hinv m p. subst m p.
  unfold effects, Socket_send, send_executor, new_promise, rej, settle. run.
  rewrite Hinv. cbn. rewrite lookup_snoc, insert_snoc, drop_all.
  repeat split. apply lookup_ge_None_2. lia.
Qed.

(** C7. [send] with a valid packet on a [Connection]: when the packet is a
    Command whose sequence is negative, the getter [sequence] of the
    connection is read first and the packet that is serialized, handed to
    the UDP socket and kept by the callback is the packet with that value
    as its sequence (and nothing else changed); in every other case the
    getter is not read and that packet is the packet as given. *)
Theorem C7_send_assigns_sequence (connection : loc) (c : Connection)
  (packet : Packet) (resolve : bool) (w : World) :
  heap w !! connection = Some c ->
  valid packet = true ->
  let m := Socket_send (Instance connection) (Instance packet) resolve in
  let unassigned := PacketType_eqb (type packet) Command && (sequence packet <? 0) in
  let next := fst (Connection_sequence (conn_state c)) in
  let packet' := if unassigned then set_sequence next packet else packet in
  (type packet = Command -> sequence packet < 0 ->
   sequence packet' = next /\ type packet' = Command
   /\ valid packet' = valid packet /\ payload packet' = payload packet)
  /\ (type packet <> Command \/ 0 <= sequence packet -> packet' = packet)
  /\ exists tail,
       effects m w
       = (if unassigned then [Get_sequence connection] else [])
         ++ Call_serialize packet' :: tail
       /\ match Packet_serialize packet' with
          | inl _ => tail = []
          | inr buffer =>
              tail = [Dgram_send buffer 0 (length buffer) (conn_port c) (conn_ip c)]
              /\ (dgram_running w = true ->
                  dgram_sending (exec m w)
                  = dgram_sending w
                    ++ [Some (mkSendCallback packet' buffer connection resolve
                                (length (promises w)))])
          end.
Proof.
  intros Hc Hvalid m unassigned next packet'.
  split; [|split].
  - intros Ht Hs. subst packet' unassigned.
    rewrite Ht. cbn. apply Z.ltb_lt in Hs. rewrite Hs. cbn. auto.
  - intros Hor. subst packet' unassigned.
    destruct Hor as [Ht|Hs].
    + destruct (type packet); try reflexivity. congruence.
    + apply Z.ltb_ge in Hs. rewrite Hs, andb_false_r. reflexivity.
  - subst m. unfold effects, Socket_send, send_executor, new_promise, rej,
      settle, instanceof_Connection, assign_sequence, get_sequence, call,
      serialize, dgram_send. run.
    subst packet' next. fold unassigned.
    destruct (Connection_sequence (conn_state c)) as [n s] eqn:Hseq.
    destruct unassigned; cbn;
      repeat (progress (rewrite ?Hvalid, ?Hc, ?Hseq; cbn));
      match goal with
      | |- context [Packet_serialize ?q] =>
          destruct (Packet_serialize q) as [e|buffer]; cbn
      end;
      try (destruct (dgram_running w) eqn:Hrun; cbn;
           try (destruct (dgram_bound w) eqn:Hbound; cbn));
      rewrite <- ?app_assoc; cbn;
      rewrite drop_app_length;
      eexists; repeat split; try reflexivity; intros; discriminate.
Qed.

(** What [send] leaves behind when it reaches the UDP socket: a pending
    promise, and its callback in flight, holding the packet as sent, the
    connection and the flag [resolve]. *)
Lemma Socket_send_in_flight (connection : loc) (c : Connection)
  (packet : Packet) (resolve : bool) (buffer : Buffer) (w : World) :
  heap w !! connection = Some c ->
  valid packet = true ->
  dgram_running w = true ->
  let m := Socket_send (Instance connection) (Instance packet) resolve in
  let packet' :=
    if PacketType_eqb (type packet) Command && (sequence packet <? 0)
    then set_sequence (fst (Connection_sequence (conn_state c))) packet
    else packet in
  Packet_serialize packet' = inr buffer ->
  let p := length (promises w) in
  result m w = Returns p
  /\ promises (exec m w) !! p = Some Pending
  /\ dgram_sending (exec m w) !! length (dgram_sending w)
     = Some (Some (mkSendCallback packet' buffer connection resolve p)).
Proof.
  intros Hc Hvalid Hrun m packet' Hser p. subst m p packet'.
  unfold Socket_send, send_executor, new_promise, rej, settle,
    instanceof_Connection, assign_sequence, get_sequence, call, serialize,
    dgram_send. run.
  destruct (Connection_sequence (conn_state c)) as [n s] eqn:Hseq.
  destruct (dgram_bound w) eqn:Hbound;
    destruct (PacketType_eqb (type packet) Command && (sequence packet <? 0));
    cbn in *;
    repeat (progress (rewrite ?Hvalid, ?Hc, ?Hseq, ?Hser, ?Hrun, ?Hbound; cbn));
    rewrite !lookup_snoc; repeat split.
Qed.

(** C6. The send in flight under number [k] completes with the error
    [err], while its promise is pending: the promise is rejected with
    [err], and the callback does nothing else: no ['sent'] event, no call
    of [store], every [Connection] as it was. *)
Theorem C6_send_transport_error (k : nat) (cb : SendCallback) (err : Error)
  (w : World) :
  dgram_sending w !! k = Some (Some cb) ->
  promises w !! cb_promise cb = Some Pending ->
  let m := dgram_send_done k (inl err) in
  result m w = Returns tt
  /\ promises (exec m w) !! cb_promise cb = Some (Rejected err)
  /\ effects m w = []
  /\ heap (exec m w) = heap w.
Proof.
  intros Hk Hp m. subst m.
  unfold effects, dgram_send_done, send_callback, rej, settle. run.
  rewrite Hk. cbn. rewrite Hp, drop_all.
  repeat split. apply list_lookup_insert_eq.
  eapply lookup_lt_Some. exact Hp.
Qed.

(** C8. The send in flight under number [k], made with [resolve = false],
    completes with [nbytes] bytes sent, while its promise is pending: the
    ['sent'] event is emitted and the promise is fulfilled, in that same
    step, with the response whose [sent] is the packet, whose [received]
    is undefined and whose [bytes] is [nbytes]; [store] is not called and
    every [Connection] is as it was. *)
Theorem C8_send_untracked_resolves (k : nat) (cb : SendCallback) (nbytes : Z)
  (w : World) :
  dgram_sending w !! k = Some (Some cb) ->
  cb_resolve cb = false ->
  promises w !! cb_promise cb = Some Pending ->
  let m := dgram_send_done k (inr nbytes) in
  result m w = Returns tt
  /\ promises (exec m w) !! cb_promise cb
     = Some (Fulfilled (mkResponse nbytes (cb_packet cb) None (cb_connection cb)))
  /\ effects m w
     = [SocketEmit (Ev_sent (cb_packet cb) (cb_buffer cb) nbytes (cb_connection cb))]
  /\ (forall s, ~ In (Call_store (cb_connection cb) s) (effects m w))
  /\ heap (exec m w) = heap w.
Proof.
  intros Hk Hres Hp m. subst m.
  unfold effects, dgram_send_done, send_callback, res, settle. run.
  rewrite Hk. cbn. rewrite Hres. cbn. rewrite Hp, drop_app_length.
  repeat split.
  - apply list_lookup_insert_eq. eapply lookup_lt_Some. exact Hp.
  - intros s [H|[]]. discriminate.
Qed.

(** ** [close] *)

Lemma registered_ext (w w' : World) (id : string) :
  connections w' = connections w ->
  length (heap w') = length (heap w) ->
  registered w' id = registered w id.
Proof.
  intros Hc Hl. unfold registered. rewrite Hc.
  destruct (obj_get (connections w) id) as [l|]; [|reflexivity].
  destruct (heap w !! l) as [c|] eqn:E.
  - apply lookup_lt_Some in E. rewrite <- Hl in E.
    apply lookup_lt_is_Some_2 in E. destruct E as [c' ->]. reflexivity.
  - apply lookup_ge_None_1 in E. rewrite <- Hl in E.
    apply lookup_ge_None_2 in E. now rewrite E.
Qed.

Lemma omap_ext' {A B} (f g : A -> option B) (l : list A) :
  (forall a, f a = g a) -> omap f l = omap g l.
Proof.
  intros Hfg. induction l as [|a l IH]; cbn; [reflexivity|].
  now rewrite Hfg, IH.
Qed.



Lemma kills_frame_refl (w : World) : kills_frame w w.
Proof. repeat split. Qed.

Lemma kills_frame_trans (w1 w2 w3 : World) :
  kills_frame w1 w2 -> kills_frame w2 w3 -> kills_frame w1 w3.
Proof.
  unfold kills_frame.
  intros (H1 & H2 & H3 & H4 & H5 & H6 & H7) (K1 & K2 & K3 & K4 & K5 & K6 & K7).
  repeat split; congruence.
Qed.

(** One turn of the loop of [close]: [kill] is called on the connection
    registered under the key, when there is one, and nothing but the state
    of that connection changes; the turn throws what [kill] throws. *)
Lemma close_connection_run (err : option Error) (id : string) (w : World) :
  exists r w1,
    close_connection err id w = (r, w1)
    /\ kills_frame w w1
    /\ trace w1 = trace w ++ map (fun l => Call_kill l err)
                               (option_list (registered w id))
    /\ (r = Returns tt
        \/ exists e, r = Throws e
                     /\ registered w id <> None
                     /\ exists s, fst (Connection_kill err s) = Some e).
Proof.
  unfold close_connection, instanceof_Connection, kill, call, registered,
    kills_frame.
  run.
  destruct (obj_get (connections w) id) as [l|]; cbn.
  - destruct (heap w !! l) as [c|] eqn:E; cbn.
    + rewrite E. cbn.
      destruct (Connection_kill err (conn_state c)) as [[e|] s] eqn:Hk; cbn;
        do 2 eexists; (split; [reflexivity|]); cbn; rewrite length_insert;
        (split; [repeat split|]); (split; [reflexivity|]);
        [right | left; reflexivity].
      exists e. repeat split; [discriminate|].
      exists (conn_state c). now rewrite Hk.
    + exists (Returns tt), w. rewrite app_nil_r. repeat split. now left.
  - exists (Returns tt), w. rewrite app_nil_r. repeat split. now left.
Qed.

(** The loop of [close] calls [kill] on the registered connections, in the
    order of the keys, until a [kill] throws, and touches nothing but the
    state of the connections it killed. *)
Lemma close_loop (err : option Error) (keys : list string) (w : World) :
  exists r w' killed rest,
    for_each keys (close_connection err) w = (r, w')
    /\ kills_frame w w'
    /\ omap (registered w) keys = killed ++ rest
    /\ trace w' = trace w ++ map (fun l => Call_kill l err) killed
    /\ (r = Returns tt /\ rest = []
        \/ exists e, r = Throws e
                     /\ killed <> []
                     /\ exists s, fst (Connection_kill err s) = Some e).
Proof.
  revert w. induction keys as [|id keys IH]; intros w.
  - exists (Returns tt), w, [], []. cbn. rewrite app_nil_r. unfold ret.
    repeat split. now left.
  - destruct (close_connection_run err id w)
      as (r1 & w1 & Hrun1 & Hf1 & Ht1 & Hcase1).
    change (omap (registered w) (id :: keys))
      with (match registered w id with
            | Some y => y :: omap (registered w) keys
            | None => omap (registered w) keys
            end).
    cbn [for_each]. unfold bind at 1. rewrite Hrun1.
    destruct Hcase1 as [-> | (e & -> & Hreg & Hthrown)].
    + destruct (IH w1)
        as (r & w' & killed & rest & Hrun & Hf & Hk & Ht & Hcase).
      rewrite (omap_ext' (registered w1) (registered w)) in Hk
        by (intros a; apply registered_ext; apply Hf1).
      exists r, w', (option_list (registered w id) ++ killed), rest.
      rewrite Hrun, Ht, Ht1, Hk, map_app, <- !app_assoc.
      split; [reflexivity|].
      split; [exact (kills_frame_trans _ _ _ Hf1 Hf)|].
      split; [destruct (registered w id); reflexivity|].
      split; [reflexivity|].
      destruct Hcase as [Hret | (e & He & Hne & Hs)]; [now left | right].
      exists e. repeat split; try assumption.
      destruct (registered w id); cbn; [discriminate | assumption].
    + destruct (registered w id) as [l|] eqn:Hl; [|congruence].
      exists (Throws e), w1, [l], (omap (registered w) keys).
      rewrite Ht1. cbn.
      split; [reflexivity|]. split; [exact Hf1|].
      split; [reflexivity|]. split; [reflexivity|].
      right. exists e. repeat split; [discriminate | assumption].
Qed.

(** [close]: [kill] is called on the registered connections, in the order
    of the keys, until one throws; when none throws, every registered
    connection has been killed and [close] is called on the UDP socket.
    A [kill] that throws ends the call: the UDP socket is left as it is. *)
Lemma Socket_close_spec (err : option Error) (w : World) :
  let m := Socket_close err in
  connections (exec m w) = connections w
  /\ length (heap (exec m w)) = length (heap w)
  /\ info_listening (exec m w) = info_listening w
  /\ dgram_once_listening (exec m w) = dgram_once_listening w
  /\ dgram_bound (exec m w) = dgram_bound w
  /\ exists killed rest,
       registered_connections w = killed ++ rest
       /\ (rest = []
           /\ trace (exec m w)
              = trace w ++ map (fun l => Call_kill l err) killed ++ [Dgram_close]
           /\ dgram_closed w (result m w) (exec m w)
           \/ exists e,
                result m w = Throws e
                /\ trace (exec m w)
                   = trace w ++ map (fun l => Call_kill l err) killed
                /\ killed <> []
                /\ dgram_running (exec m w) = dgram_running w
                /\ dgram_queue (exec m w) = dgram_queue w
                /\ exists s, fst (Connection_kill err s) = Some e).
Proof.
  intros m. subst m.
  destruct (close_loop err (obj_keys (connections w)) w)
    as (r & w' & killed & rest & Hrun & Hf & Hk & Ht & Hcase).
  destruct Hf as (Hc & Hh & Hl & Hr & Hb & Hq & Ho).
  unfold Socket_close, dgram_close, dgram_enqueue, dgram_closed. run.
  rewrite Hrun.
  destruct Hcase as [[-> ->] | (e & -> & Hne & Hs)]; cbn.
  - rewrite Hq.
    destruct (dgram_queue w) as [q|] eqn:Eq; cbn;
      [|rewrite Hr; destruct (dgram_running w) eqn:Er; cbn];
      rewrite ?Hc, ?Hh, ?Hl, ?Ho, ?Hb, ?Hr, ?Ht, ?Hq, ?Eq, <- ?app_assoc;
      (do 5 (split; [reflexivity|]));
      exists killed, []; (split; [exact Hk|]); left;
      repeat split; assumption.
  - rewrite Hc, Hh, Hl, Ho, Hb, Ht, Hr, Hq.
    do 5 (split; [reflexivity|]).
    exists killed, rest. split; [exact Hk|]. right.
    exists e. repeat split; assumption.
Qed.

(** [close] when no [kill] throws. *)
Lemma Socket_close_returns (err : option Error) (w : World) :
  kill_returns err ->
  let m := Socket_close err in
  trace (exec m w)
  = trace w ++ map (fun l => Call_kill l err) (registered_connections w)
    ++ [Dgram_close]
  /\ dgram_closed w (result m w) (exec m w)
  /\ connections (exec m w) = connections w
  /\ length (heap (exec m w)) = length (heap w).
Proof.
  intros Hk m. subst m.
  destruct (Socket_close_spec err w)
    as (Hc & Hh & _ & _ & _ & killed & rest & Hreg & Hcase).
  destruct Hcase as [(-> & Ht & Hd) | (e & _ & _ & _ & _ & _ & s & Hs)].
  - rewrite app_nil_r in Hreg. rewrite Hreg. repeat split; assumption.
  - rewrite (Hk s) in Hs. discriminate.
Qed.



(** ** [connection] and the ['listening'] event *)

(** One deferred [connect]: the call, on an object of the heap, and its
    promise. *)
Lemma connect_catch_run (l : loc) (w : World) :
  (l < length (heap w))%nat ->
  exists w',
    connect_catch l w = (Returns tt, w')
    /\ trace w' = trace w ++ [Call_connect l (length (connecting w))]
    /\ connecting w' = connecting w ++ [Pending]
    /\ connections w' = connections w
    /\ length (heap w') = length (heap w)
    /\ info_listening w' = info_listening w
    /\ dgram_once_listening w' = dgram_once_listening w.
Proof.
  intros Hl. apply lookup_lt_is_Some_2 in Hl. destruct Hl as [c Hc].
  unfold connect_catch, call. run. rewrite Hc. cbn.
  eexists. split; [reflexivity|]. cbn. rewrite length_insert. repeat split.
Qed.

(** The listeners added with [once] run in turn: [connect] is called on
    each of their connections, and the promise of each call is pending
    when they are all done. *)
Lemma once_loop (once : list loc) (w : World) :
  Forall (fun l => (l < length (heap w))%nat) once ->
  exists w' es,
    for_each once connect_catch w = (Returns tt, w')
    /\ trace w' = trace w ++ es
    /\ (exists ps, connecting w' = connecting w ++ ps)
    /\ connections w' = connections w
    /\ length (heap w') = length (heap w)
    /\ info_listening w' = info_listening w
    /\ dgram_once_listening w' = dgram_once_listening w
    /\ forall l, In l once ->
         exists p, In (Call_connect l p) es /\ connecting w' !! p = Some Pending.
Proof.
  revert w. induction once as [|l once IH]; intros w Hvalid.
  - exists w, []. cbn. unfold ret. rewrite app_nil_r.
    repeat split; [exists []; now rewrite app_nil_r | intros l []].
  - inversion Hvalid as [|? ? Hl Hrest]; subst.
    destruct (connect_catch_run l w Hl)
      as (w1 & Hrun1 & Ht1 & Hg1 & Hc1 & Hh1 & Hi1 & Ho1).
    rewrite <- Hh1 in Hrest.
    destruct (IH w1 Hrest)
      as (w' & es & Hrun & Ht & [ps Hg] & Hc & Hh & Hi & Ho & Hall).
    exists w', (Call_connect l (length (connecting w)) :: es).
    cbn [for_each]. unfold bind at 1. rewrite Hrun1, Hrun.
    split; [reflexivity|].
    split; [rewrite Ht, Ht1, <- app_assoc; reflexivity|].
    split; [exists (Pending :: ps); rewrite Hg, Hg1, <- app_assoc; reflexivity|].
    rewrite Hc, Hh, Hi, Ho. repeat split; try assumption.
    intros l' [<-|Hin].
    + exists (length (connecting w)). split; [now left|].
      rewrite Hg, Hg1, <- app_assoc. apply list_lookup_middle. reflexivity.
    + destruct (Hall l' Hin) as (p & Hp & Hpending).
      exists p. split; [now right | assumption].
Qed.

(** The handler attached to the promise of [connect]: a rejection becomes
    an ['error'] event of the [Socket]. *)
Lemma connect_settled_rejected (p : pid) (e : Error) (w : World) :
  connecting w !! p = Some Pending ->
  let m := connect_settled p (inl e) in
  result m w = Returns tt
  /\ effects m w = [SocketEmit (Ev_error e)]
  /\ connecting (exec m w) !! p = Some (Rejected e)
  /\ connections (exec m w) = connections w
  /\ heap (exec m w) = heap w.
Proof.
  intros Hp m. subst m. unfold effects, connect_settled. run.
  rewrite Hp. cbn. rewrite drop_app_length.
  repeat split. apply list_lookup_insert_eq. eapply lookup_lt_Some. exact Hp.
Qed.

(** Running the queue of the UDP socket touches the UDP socket only. *)
Lemma dgram_clear_queue_run (w : World) :
  exists w',
    dgram_clear_queue w = (Returns tt, w')
    /\ trace w' = trace w
    /\ connecting w' = connecting w
    /\ connections w' = connections w
    /\ heap w' = heap w
    /\ info_listening w' = info_listening w
    /\ dgram_once_listening w' = dgram_once_listening w
    /\ dgram_queue w' = None.
Proof.
  unfold dgram_clear_queue. run.
  destruct (existsb is_queued_close (default [] (dgram_queue w)));
    eexists; (split; [reflexivity|]); repeat split.
Qed.

(** The UDP socket emits ['listening']: the [Socket] is marked listening
    and emits ['listening']; then every deferred [connect] is made. *)
Lemma dgram_emit_listening_spec (w : World) :
  Forall (fun l => (l < length (heap w))%nat) (dgram_once_listening w) ->
  let m := dgram_emit_listening in
  exists es,
    result m w = Returns tt
    /\ effects m w = SocketEmit Ev_listening :: es
    /\ info_listening (exec m w) = true
    /\ dgram_once_listening (exec m w) = []
    /\ connections (exec m w) = connections w
    /\ length (heap (exec m w)) = length (heap w)
    /\ forall l, In l (dgram_once_listening w) ->
         exists p, In (Call_connect l p) es
                   /\ connecting (exec m w) !! p = Some Pending.
Proof.
  intros Hvalid m. subst m.
  set (w0 := set_dgram_once_listening (fun _ => [])
               (log (SocketEmit Ev_listening)
                  (set_info_listening true (set_dgram_bound true w)))).
  destruct (once_loop (dgram_once_listening w) w0 Hvalid)
    as (w1 & es & Hrun & Ht & _ & Hc & Hh & Hi & Ho & Hall).
  destruct (dgram_clear_queue_run w1)
    as (w' & Hclear & Ht' & Hg' & Hc' & Hh' & Hi' & Ho' & _).
  exists es.
  assert (Hm : dgram_emit_listening w = (Returns tt, w')).
  { unfold dgram_emit_listening, on_listening. run. fold w0.
    rewrite Hrun. exact Hclear. }
  unfold effects, exec, result. rewrite Hm. cbn.
  rewrite Ht', Hg', Hc', Hh', Hi', Ho', Ht, Hc, Hh, Hi, Ho. cbn.
  rewrite <- app_assoc, drop_app_length.
  repeat split. exact Hall.
Qed.

(** C10. [connection] with [connect = true], for an address not yet
    registered: the [Connection] is returned and registered under its key.
    When the [Socket] is listening, [connect] is called on it during the
    call. When it is not, [connect] is not called: a listener is added on
    the UDP socket with [once], and [connect] is called when the UDP
    socket emits ['listening']. Either way the promise of that call is
    pending with the handler attached, and whenever such a promise is
    rejected with [e], the handler emits [e] as an ['error'] event of the
    [Socket] and the registry is not touched. *)
Theorem C10_auto_connect (details : IConnectionDetails)
  (options : IConnectionOptions) (w : World) :
  let id := hashAddress (details_ip details) (details_port details) in
  let m := Socket_connection details options true in
  let conn := length (heap w) in
  let w1 := exec m w in
  wf w ->
  obj_get (connections w) id = None ->
  result m w = Returns conn
  /\ obj_get (connections w1) id = Some conn
  /\ (if info_listening w
      then effects m w = [Call_connect conn (length (connecting w))]
           /\ connecting w1 !! length (connecting w) = Some Pending
      else effects m w = [Dgram_once_listening conn]
           /\ connecting w1 = connecting w
           /\ dgram_once_listening w1 = dgram_once_listening w ++ [conn]
           /\ exists p,
                In (Call_connect conn p) (effects dgram_emit_listening w1)
                /\ connecting (exec dgram_emit_listening w1) !! p = Some Pending
                /\ obj_get (connections (exec dgram_emit_listening w1)) id
                   = Some conn)
  /\ (forall (w2 : World) (p : pid) (e : Error),
        connecting w2 !! p = Some Pending ->
        result (connect_settled p (inl e)) w2 = Returns tt
        /\ effects (connect_settled p (inl e)) w2 = [SocketEmit (Ev_error e)]
        /\ connections (exec (connect_settled p (inl e)) w2) = connections w2).
Proof.
  intros id m conn w1 Hwf Hget.
  assert (Hrun : result m w = Returns conn
    /\ obj_get (connections w1) id = Some conn
    /\ length (heap w1) = S (length (heap w))
    /\ if info_listening w
       then effects m w = [Call_connect conn (length (connecting w))]
            /\ connecting w1 !! length (connecting w) = Some Pending
       else effects m w = [Dgram_once_listening conn]
            /\ connecting w1 = connecting w
            /\ dgram_once_listening w1 = dgram_once_listening w ++ [conn]).
  { subst w1 m conn.
    destruct (info_listening w) eqn:Hl;
      unfold effects, Socket_connection, Connection_new, connect_catch, call,
        dgram_once_listening_add; run; fold id;
      repeat (progress (rewrite ?Hget, ?Hl, ?insert_snoc, ?lookup_snoc; cbn));
      rewrite obj_get_set, drop_app_length, ?length_app; cbn;
      repeat split; try apply lookup_snoc; lia. }
  destruct Hrun as (Hres & Hreg & Hheap & Hcase).
  split; [exact Hres|]. split; [exact Hreg|]. split.
  - destruct (info_listening w); [exact Hcase|].
    destruct Hcase as (Heff & Hconn & Honce).
    repeat split; try assumption.
    assert (Hvalid : Forall (fun l => (l < length (heap w1))%nat)
                       (dgram_once_listening w1)).
    { rewrite Honce, Hheap. apply Forall_app. split.
      - unfold wf in Hwf. apply Forall_app in Hwf. destruct Hwf as [Hwf _].
        eapply Forall_impl; [exact Hwf|]. cbn. intros; lia.
      - constructor; [subst conn; lia | constructor]. }
    destruct (dgram_emit_listening_spec w1 Hvalid)
      as (es & _ & Heff' & _ & _ & Hc' & _ & Hall).
    destruct (Hall conn) as (p & Hin & Hpending).
    { rewrite Honce. apply in_or_app. right. now left. }
    exists p. rewrite Heff', Hc'. repeat split; [now right | assumption | assumption].
  - intros w2 p e Hp.
    destruct (connect_settled_rejected p e w2 Hp) as (H1 & H2 & _ & H3 & _).
    repeat split; assumption.
Qed.

(** ** Framing *)

Section Framing.
Variable R : World -> World -> Prop.
Hypothesis R_refl : forall w, R w w.
Hypothesis R_trans : forall w1 w2 w3, R w1 w2 -> R w2 w3 -> R w1 w3.
Hypothesis R_call : forall w c o e,
  R w (log e (set_heap (fun h => <[c := o]> h) w)).

Lemma framed_ret {A} (a : A) : framed R (ret a).
Proof. intros w. apply R_refl. Qed.

Lemma framed_throw {A} (e : Error) : framed R (@throw _ A e).
Proof. intros w. apply R_refl. Qed.

Lemma framed_gets {A} (f : World -> A) : framed R (gets f).
Proof. intros w. apply R_refl. Qed.

Lemma framed_modify (f : World -> World) :
  (forall w, R w (f w)) -> framed R (modify f).
Proof. intros Hf w. exact (Hf w). Qed.

Lemma framed_bind {A B} (m : M A) (k : A -> M B) :
  framed R m -> (forall a, framed R (k a)) -> framed R (bind m k).
Proof.
  intros Hm Hk w. unfold exec, bind. specialize (Hm w). unfold exec in Hm.
  destruct (m w) as [[a|e] w1]; cbn in *; [|exact Hm].
  eapply R_trans; [exact Hm | apply Hk].
Qed.

Lemma framed_try {A} (m : M A) : framed R m -> framed R (try_catch m).
Proof.
  intros Hm w. specialize (Hm w). unfold exec, try_catch in *.
  now destruct (m w).
Qed.

Lemma framed_call {A} (c : loc) (e : Effect)
  (method : ConnState -> A * ConnState) :
  framed R (call c e method).
Proof.
  intros w. unfold exec, call.
  destruct (heap w !! c) as [o|]; [destruct (method (conn_state o))|]; cbn;
    [apply R_call | apply R_refl].
Qed.

Lemma framed_for_each {A} (l : list A) (body : A -> M unit) :
  (forall a, framed R (body a)) -> framed R (for_each l body).
Proof.
  intros Hbody. induction l as [|a l IH]; cbn.
  - apply framed_ret.
  - apply framed_bind; [apply Hbody | intros _; exact IH].
Qed.
End Framing.

Lemma registry_frame_refl (w : World) : registry_frame w w.
Proof. repeat split. lia. Qed.

Lemma registry_frame_trans (w1 w2 w3 : World) :
  registry_frame w1 w2 -> registry_frame w2 w3 -> registry_frame w1 w3.
Proof.
  intros (Hc & Ho & Hh) (Hc' & Ho' & Hh').
  repeat split; [congruence | congruence | lia].
Qed.

Lemma registry_frame_call (w : World) c o e :
  registry_frame w (log e (set_heap (fun h => <[c := o]> h) w)).
Proof. repeat split. cbn. rewrite length_insert. lia. Qed.

Lemma sends_frame_refl (w : World) : sends_frame w w.
Proof. split; reflexivity. Qed.

Lemma sends_frame_trans (w1 w2 w3 : World) :
  sends_frame w1 w2 -> sends_frame w2 w3 -> sends_frame w1 w3.
Proof. intros (Hp & Hs) (Hp' & Hs'). split; congruence. Qed.

Lemma sends_frame_call (w : World) c o e :
  sends_frame w (log e (set_heap (fun h => <[c := o]> h) w)).
Proof. split; reflexivity. Qed.

(** Handlers are framed by their shape. *)
Ltac framed Hrefl Htrans Hcall :=
  repeat first
    [ apply (framed_ret _ Hrefl) | apply (framed_throw _ Hrefl)
    | apply (framed_gets _ Hrefl) | apply (framed_call _ Hrefl Hcall)
    | apply framed_try
    | apply (framed_for_each _ Hrefl Htrans); intros ?
    | apply (framed_bind _ Htrans); [|intros ?]
    | apply framed_modify; intros ?;
      solve [repeat split; cbn; rewrite ?length_app; try reflexivity; lia]
    | match goal with
      | |- framed _ (match ?x with _ => _ end) => destruct x
      | |- framed _ (let (_, _) := ?x in _) => destruct x
      end ].

Ltac framed_registry :=
  framed registry_frame_refl registry_frame_trans registry_frame_call.
Ltac framed_sends :=
  framed sends_frame_refl sends_frame_trans sends_frame_call.

(** ** The invariant [wf] *)

Lemma wf_frame (w w' : World) : registry_frame w w' -> wf w -> wf w'.
Proof.
  unfold wf. intros (-> & -> & Hle) Hwf.
  eapply Forall_impl; [exact Hwf|]. cbn. intros; lia.
Qed.

Lemma wf_framed {A} (m : M A) (w : World) :
  framed registry_frame m -> wf w -> wf (exec m w).
Proof. intros Hm. apply wf_frame, Hm. Qed.

Lemma wf_connection details options connect (w : World) :
  wf w -> wf (exec (Socket_connection details options connect) w).
Proof.
  intros Hwf.
  unfold Socket_connection, Connection_new, connect_catch, call,
    dgram_once_listening_add. run.
  set (id := hashAddress (details_ip details) (details_port details)).
  destruct (obj_get (connections w) id) eqn:Hget; cbn.
  - revert Hwf. apply wf_frame. repeat split. cbn. rewrite length_app. lia.
  - assert (Hgrow : forall once regs (h : list Connection),
        (length h = S (length (heap w)))%nat ->
        (once = dgram_once_listening w
         \/ once = dgram_once_listening w ++ [length (heap w)]) ->
        regs = obj_set (connections w) id (length (heap w)) ->
        Forall (fun l => (l < length h)%nat) (once ++ map snd regs)).
    { intros once regs h Hh Honce ->.
      rewrite (obj_set_absent _ _ _ Hget), map_app. cbn.
      unfold wf in Hwf. apply Forall_app in Hwf. destruct Hwf as [Ho Hr].
      rewrite Hh. apply Forall_app. split; [|apply Forall_app; split].
      - destruct Honce as [->| ->]; [|apply Forall_app; split].
        + eapply Forall_impl; [exact Ho|]. cbn. intros; lia.
        + eapply Forall_impl; [exact Ho|]. cbn. intros; lia.
        + repeat constructor.
      - eapply Forall_impl; [exact Hr|]. cbn. intros; lia.
      - repeat constructor. }
    unfold wf.
    destruct connect; [destruct (info_listening w) eqn:Hl|]; cbn;
      repeat (progress (rewrite ?Hl, ?lookup_snoc; cbn));
      apply Hgrow; rewrite ?length_insert, ?length_app; cbn; auto; lia.
Qed.

Lemma framed_registry_send connection packet resolve :
  framed registry_frame (Socket_send connection packet resolve).
Proof.
  unfold Socket_send, send_executor, new_promise, rej, settle,
    instanceof_Connection, assign_sequence, get_sequence, serialize,
    dgram_send. framed_registry.
Qed.

Lemma framed_registry_receive buffer info :
  framed registry_frame (Socket_receive buffer info).
Proof.
  unfold Socket_receive, instanceof_Connection, FROM, recieve, emit,
    connection_emit. framed_registry.
Qed.

Lemma framed_registry_send_done k r :
  framed registry_frame (dgram_send_done k r).
Proof.
  unfold dgram_send_done, send_callback, store, rej, res, settle, emit.
  framed_registry.
Qed.

Lemma framed_registry_connect_settled p r :
  framed registry_frame (connect_settled p r).
Proof. unfold connect_settled, emit. framed_registry. Qed.

Lemma framed_registry_close err : framed registry_frame (Socket_close err).
Proof.
  unfold Socket_close, close_connection, instanceof_Connection, kill,
    dgram_close. framed_registry.
Qed.

Lemma framed_registry_error err :
  framed registry_frame (dgram_emit_error err).
Proof.
  unfold dgram_emit_error, on_error, emit.
  do 3 (apply (framed_bind _ registry_frame_trans); [framed_registry | intros _]).
  apply framed_registry_close.
Qed.

Lemma wf_emit_listening (w : World) :
  wf w -> wf (exec dgram_emit_listening w).
Proof.
  intros Hwf. pose proof Hwf as Hvalid.
  unfold wf in Hvalid. apply Forall_app in Hvalid. destruct Hvalid as [Ho Hr].
  destruct (dgram_emit_listening_spec w Ho) as (es & _ & _ & _ & Ho' & Hc & Hh & _).
  unfold wf. rewrite Ho', Hc, Hh. exact Hr.
Qed.

(** [wf] holds for a new [Socket] and is kept by every step. *)
Theorem wf_reachable (w : World) : reachable w -> wf w.
Proof.
  induction 1 as [|w a _ IH].
  - constructor.
  - destruct a; cbn [perform].
    + now apply wf_connection.
    + now apply wf_framed; [apply framed_registry_send|].
    + now apply wf_framed; [apply framed_registry_close|].
    + now apply wf_framed; [apply framed_registry_receive|].
    + now apply wf_emit_listening.
    + now apply wf_framed; [apply framed_registry_error|].
    + revert IH. apply wf_frame. repeat split. cbn. lia.
    + now apply wf_framed; [apply framed_registry_send_done|].
    + now apply wf_framed; [apply framed_registry_connect_settled|].
Qed.
(** ** The invariant [in_flight] *)

Lemma in_flight_frame (w w' : World) :
  sends_frame w w' -> in_flight w -> in_flight w'.
Proof. unfold in_flight. intros (-> & ->) Hw. exact Hw. Qed.

Lemma framed_sends_connection details options connect :
  framed sends_frame (Socket_connection details options connect).
Proof.
  unfold Socket_connection, Connection_new, listening, connect_catch,
    dgram_once_listening_add. framed_sends.
Qed.

Lemma framed_sends_close err : framed sends_frame (Socket_close err).
Proof.
  unfold Socket_close, close_connection, instanceof_Connection, kill,
    dgram_close. framed_sends.
Qed.

Lemma framed_sends_receive buffer info :
  framed sends_frame (Socket_receive buffer info).
Proof.
  unfold Socket_receive, instanceof_Connection, FROM, recieve, emit,
    connection_emit. framed_sends.
Qed.

Lemma framed_sends_listening : framed sends_frame dgram_emit_listening.
Proof.
  unfold dgram_emit_listening, on_listening, emit, connect_catch.
  framed_sends.
Qed.

Lemma framed_sends_error err : framed sends_frame (dgram_emit_error err).
Proof.
  unfold dgram_emit_error, on_error, emit.
  do 3 (apply (framed_bind _ sends_frame_trans); [framed_sends | intros _]).
  apply framed_sends_close.
Qed.

Lemma framed_sends_connect_settled p r :
  framed sends_frame (connect_settled p r).
Proof. unfold connect_settled, emit. framed_sends. Qed.

(** [send] makes one promise, and puts at most one send in flight: a send
    on that promise, left pending. *)
Lemma Socket_send_shape connection packet resolve (w : World) :
  let w' := exec (Socket_send connection packet resolve) w in
  exists x,
    promises w' = promises w ++ [x]
    /\ (dgram_sending w' = dgram_sending w
        \/ x = Pending
           /\ exists cb, cb_promise cb = length (promises w)
                         /\ dgram_sending w' = dgram_sending w ++ [Some cb]).
Proof.
  unfold Socket_send, send_executor, new_promise, rej, settle,
    instanceof_Connection, assign_sequence, get_sequence, call, serialize,
    dgram_send. run.
  destruct packet as [packet|]; cbn;
    [destruct (valid packet); cbn;
     [destruct connection as [l|]; cbn;
      [destruct (heap w !! l) as [c|] eqn:Hc; cbn|]|]|];
    rewrite ?lookup_snoc, ?insert_snoc; eauto.
  destruct (Connection_sequence (conn_state c)) as [n s] eqn:Hseq.
  destruct (PacketType_eqb (type packet) Command && (sequence packet <? 0));
    cbn; repeat (progress (rewrite ?Hc, ?Hseq; cbn));
    match goal with
    | |- context [Packet_serialize ?q] =>
        destruct (Packet_serialize q) as [e|buffer]; cbn
    end;
    try (destruct (dgram_running w) eqn:Hrun; cbn;
           try (destruct (dgram_bound w) eqn:Hbound; cbn));
    rewrite ?lookup_snoc, ?insert_snoc; eauto.
  all: eexists; split; [reflexivity|]; right; split; [reflexivity|];
    eexists; split; [|reflexivity]; reflexivity.
Qed.

Lemma in_flight_send connection packet resolve (w : World) :
  in_flight w -> in_flight (exec (Socket_send connection packet resolve) w).
Proof.
  intros Hw.
  destruct (Socket_send_shape connection packet resolve w)
    as (x & Hp & [Hs | (-> & cb0 & Hcb0 & Hs)]);
    unfold in_flight; rewrite Hp, Hs; clear Hp Hs.
  - intros k cb Hk. destruct (Hw k cb Hk) as [Hpend Huniq].
    split; [|exact Huniq].
    rewrite lookup_app_l; [exact Hpend|]. eapply lookup_lt_Some. exact Hpend.
  - assert (Hold : forall k cb, dgram_sending w !! k = Some (Some cb) ->
                     (cb_promise cb < length (promises w))%nat).
    { intros k cb Hk. destruct (Hw k cb Hk) as [Hpend _].
      eapply lookup_lt_Some. exact Hpend. }
    assert (Hcases : forall k cb,
              (dgram_sending w ++ [Some cb0]) !! k = Some (Some cb) ->
              dgram_sending w !! k = Some (Some cb)
              \/ k = length (dgram_sending w) /\ cb = cb0).
    { intros k cb Hk. apply lookup_app_Some in Hk.
      destruct Hk as [Hk | [Hge Hk]]; [now left | right].
      destruct (k - length (dgram_sending w))%nat as [|i] eqn:Hi;
        cbn in Hk; [|discriminate].
      split; [lia | congruence]. }
    intros k cb Hk. destruct (Hcases k cb Hk) as [Hk0 | [-> ->]].
    + destruct (Hw k cb Hk0) as [Hpend Huniq]. split.
      * rewrite lookup_app_l; [exact Hpend | now apply (Hold k)].
      * intros k' cb' Hk' Heq.
        destruct (Hcases k' cb' Hk') as [Hk0' | [-> ->]].
        -- now apply (Huniq k' cb').
        -- pose proof (Hold k cb Hk0). lia.
    + split.
      * rewrite Hcb0. apply lookup_snoc.
      * intros k' cb' Hk' Heq.
        destruct (Hcases k' cb' Hk') as [Hk0' | [-> ->]]; [|reflexivity].
        pose proof (Hold k' cb' Hk0'). lia.
Qed.
(** The callback of a send takes the send out of flight and touches no
    promise but its own. *)
Lemma dgram_send_done_shape k r (w : World) :
  let w' := exec (dgram_send_done k r) w in
  match dgram_sending w !! k with
  | Some (Some cb) =>
      dgram_sending w' = <[k := None]> (dgram_sending w)
      /\ (promises w' = promises w
          \/ exists x, promises w' = <[cb_promise cb := x]> (promises w))
  | _ => w' = w
  end.
Proof.
  unfold dgram_send_done, send_callback, store, call, rej, res, settle. run.
  destruct (dgram_sending w !! k) as [[cb|]|]; cbn; try reflexivity.
  destruct r as [err|nbytes]; cbn.
  - split; [reflexivity|].
    destruct (promises w !! cb_promise cb) as [[]|]; eauto.
  - destruct (cb_resolve cb); cbn.
    + destruct (heap w !! cb_connection cb) as [o|]; cbn.
      * destruct (Connection_store _ (conn_state o)) as [[e|] st]; cbn;
          (split; [reflexivity|]);
          try destruct (promises w !! cb_promise cb) as [[]|]; eauto.
      * split; [reflexivity|].
        destruct (promises w !! cb_promise cb) as [[]|]; eauto.
    + split; [reflexivity|].
      destruct (promises w !! cb_promise cb) as [[]|]; eauto.
Qed.

Lemma in_flight_send_done k r (w : World) :
  in_flight w -> in_flight (exec (dgram_send_done k r) w).
Proof.
  intros Hw. pose proof (dgram_send_done_shape k r w) as Hshape.
  cbv zeta in Hshape.
  destruct (dgram_sending w !! k) as [[cb|]|] eqn:Hk;
    [|now rewrite Hshape..].
  destruct Hshape as [Hs Hp].
  assert (Hrest : forall k' cb',
            <[k := None]> (dgram_sending w) !! k' = Some (Some cb') ->
            k' <> k /\ dgram_sending w !! k' = Some (Some cb')).
  { intros k' cb' Hk'. destruct (decide (k' = k)) as [->|Hne].
    - rewrite list_lookup_insert_eq in Hk'; [discriminate|].
      eapply lookup_lt_Some. exact Hk.
    - rewrite list_lookup_insert_ne in Hk' by congruence. now split. }
  unfold in_flight. rewrite Hs. intros k1 cb1 Hk1.
  destruct (Hrest k1 cb1 Hk1) as [Hne1 Hk1w].
  destruct (Hw k1 cb1 Hk1w) as [Hpend Huniq]. split.
  - destruct Hp as [-> | [x ->]]; [exact Hpend|].
    rewrite list_lookup_insert_ne; [exact Hpend|].
    intros Heq. apply Hne1. symmetry. now apply (Huniq k cb).
  - intros k2 cb2 Hk2 Heq.
    destruct (Hrest k2 cb2 Hk2) as [_ Hk2w]. now apply (Huniq k2 cb2).
Qed.

(** X16. [in_flight] holds for a new [Socket] and is kept by every step:
    in every world a [Socket] can reach, each send in flight has a promise
    of its own, and that promise is pending. *)
Theorem in_flight_reachable (w : World) : reachable w -> in_flight w.
Proof.
  induction 1 as [|w a _ IH].
  - intros k cb Hk. discriminate.
  - destruct a; cbn [perform].
    + eapply in_flight_frame; [apply framed_sends_connection | exact IH].
    + now apply in_flight_send.
    + eapply in_flight_frame; [apply framed_sends_close | exact IH].
    + eapply in_flight_frame; [apply framed_sends_receive | exact IH].
    + eapply in_flight_frame; [apply framed_sends_listening | exact IH].
    + eapply in_flight_frame; [apply framed_sends_error | exact IH].
    + exact IH.
    + now apply in_flight_send_done.
    + eapply in_flight_frame; [apply framed_sends_connect_settled | exact IH].
Qed.
(** * Further properties of [socket.ts] *)

(** ** [receive]: the datagram that is delivered *)

Lemma Socket_receive_valid_run (buffer : Buffer) (info : RemoteInfo)
  (w : World) (connection : loc) (c : Connection) (packet : Packet) :
  registered w (hashAddress (address info) (port info)) = Some connection ->
  heap w !! connection = Some c ->
  Packet_FROM buffer = inr packet ->
  valid packet = true ->
  let resolved := fst (Connection_recieve packet (conn_state c)) in
  let c' := mkConnection (conn_id c) (conn_ip c) (conn_port c)
              (snd (Connection_recieve packet (conn_state c))) in
  Socket_receive buffer info w
  = (Returns tt,
     log (ConnectionEmit connection (CEv_received resolved packet buffer info))
       (log (SocketEmit (Ev_received resolved packet buffer connection info))
          (log (Call_recieve connection packet)
             (set_heap (fun h => <[connection := c']> h)
                (log (Call_FROM buffer) w))))).
Proof.
  intros Hreg Hc Hdec Hvalid resolved c'. subst resolved c'.
  unfold Socket_receive, instanceof_Connection, registered, FROM, recieve,
    call in *. run.
  destruct (obj_get (connections w) _) as [l|]; [|discriminate].
  destruct (heap w !! l) eqn:Hl; [|discriminate].
  injection Hreg as ->. rewrite Hl in Hc. injection Hc as ->.
  rewrite Hdec. cbn. rewrite Hvalid. cbn. rewrite Hl.
  destruct (Connection_recieve packet (conn_state c)). reflexivity.
Qed.

(** X1. A datagram from the address of a registered [Connection] that
    decodes to a packet with [valid = true]: [receive] calls [recieve] on
    that connection, once, with the packet, then emits ['received'] on the
    [Socket] and on the connection, both with what [recieve] returned; the
    registry is untouched and no other connection changes. *)
Theorem X1_receive_delivers (buffer : Buffer) (info : RemoteInfo)
  (w : World) (connection : loc) (c : Connection) (packet : Packet) :
  registered w (hashAddress (address info) (port info)) = Some connection ->
  heap w !! connection = Some c ->
  Packet_FROM buffer = inr packet ->
  valid packet = true ->
  let m := Socket_receive buffer info in
  let resolved := fst (Connection_recieve packet (conn_state c)) in
  result m w = Returns tt
  /\ effects m w
     = [Call_FROM buffer; Call_recieve connection packet;
        SocketEmit (Ev_received resolved packet buffer connection info);
        ConnectionEmit connection (CEv_received resolved packet buffer info)]
  /\ connections (exec m w) = connections w
  /\ (forall l, l <> connection -> heap (exec m w) !! l = heap w !! l)
  /\ exists c', heap (exec m w) !! connection = Some c'
                /\ conn_state c' = snd (Connection_recieve packet (conn_state c)).
Proof.
  intros Hreg Hc Hdec Hvalid m resolved. subst m resolved.
  pose proof (Socket_receive_valid_run buffer info w connection c packet
                Hreg Hc Hdec Hvalid) as Hrun. cbv zeta in Hrun.
  unfold effects, exec, result. rewrite Hrun. cbn.
  rewrite <- !app_assoc, drop_app_length.
  repeat split.
  - intros l Hl. apply list_lookup_insert_ne. congruence.
  - eexists. split;
      [apply list_lookup_insert_eq; eapply lookup_lt_Some; exact Hc
      | reflexivity].
Qed.

(** ** [send]: the ways it rejects *)

(** X2. [send] with something that is not a [Packet]: the promise is
    rejected with the [TypeError] of the first guard, whatever the
    connection is, and the call has no effect outside the [Socket]. *)
Theorem X2_send_not_a_packet (connection : Js loc) (resolve : bool) (w : World) :
  let m := Socket_send connection Foreign resolve in
  result m w = Returns (length (promises w))
  /\ promises (exec m w)
     = promises w
       ++ [Rejected (TypeError "packet must be an instance of BEPacket")]
  /\ effects m w = []
  /\ dgram_sending (exec m w) = dgram_sending w
  /\ heap (exec m w) = heap w.
Proof.
  intros m. subst m.
  unfold effects, Socket_send, send_executor, new_promise, rej, settle. run.
  rewrite lookup_snoc, insert_snoc, drop_all. repeat split.
Qed.

(** X3. [send] with a valid packet and something that is not a
    [Connection]: the promise is rejected with the [TypeError] of the third
    guard; the sequence of the packet is not assigned, nothing is
    serialized and nothing is handed to the UDP socket. *)
Theorem X3_send_not_a_connection (connection : Js loc) (packet : Packet)
  (resolve : bool) (w : World) :
  valid packet = true ->
  (forall l, connection = Instance l -> heap w !! l = None) ->
  let m := Socket_send connection (Instance packet) resolve in
  result m w = Returns (length (promises w))
  /\ promises (exec m w)
     = promises w
       ++ [Rejected (TypeError "connection must be an instance of Connection")]
  /\ effects m w = []
  /\ dgram_sending (exec m w) = dgram_sending w
  /\ heap (exec m w) = heap w.
Proof.
  intros Hvalid Hnot m. subst m.
  unfold effects, Socket_send, send_executor, new_promise, rej, settle,
    instanceof_Connection. run.
  rewrite Hvalid. cbn.
  destruct connection as [l|]; cbn; [rewrite (Hnot l eq_refl); cbn|];
    rewrite lookup_snoc, insert_snoc, drop_all; repeat split.
Qed.

(** What [send] does once its guards are passed, by what [serialize] and
    the UDP socket do. *)
Lemma Socket_send_outcome (connection : loc) (c : Connection)
  (packet : Packet) (resolve : bool) (w : World) :
  heap w !! connection = Some c ->
  valid packet = true ->
  let m := Socket_send (Instance connection) (Instance packet) resolve in
  let unassigned := PacketType_eqb (type packet) Command && (sequence packet <? 0) in
  let packet' :=
    if unassigned
    then set_sequence (fst (Connection_sequence (conn_state c))) packet
    else packet in
  let before := (if unassigned then [Get_sequence connection] else [])
                ++ [Call_serialize packet'] in
  let p := length (promises w) in
  result m w = Returns p
  /\ match Packet_serialize packet' with
     | inl e =>
         promises (exec m w) = promises w ++ [Rejected e]
         /\ effects m w = before
         /\ dgram_sending (exec m w) = dgram_sending w
     | inr buffer =>
         effects m w
         = before ++ [Dgram_send buffer 0 (length buffer) (conn_port c) (conn_ip c)]
         /\ if dgram_running w
            then promises (exec m w) = promises w ++ [Pending]
                 /\ dgram_sending (exec m w)
                    = dgram_sending w
                      ++ [Some (mkSendCallback packet' buffer connection resolve p)]
            else promises (exec m w)
                 = promises w ++ [Rejected ERR_SOCKET_DGRAM_NOT_RUNNING]
                 /\ dgram_sending (exec m w) = dgram_sending w
     end.
Proof.
  intros Hc Hvalid m unassigned packet' before p.
  subst m p before packet'.
  unfold effects, Socket_send, send_executor, new_promise, rej, settle,
    instanceof_Connection, assign_sequence, get_sequence, call, serialize,
    dgram_send. run. fold unassigned.
  destruct (Connection_sequence (conn_state c)) as [n s] eqn:Hseq.
  destruct unassigned; cbn;
    repeat (progress (rewrite ?Hvalid, ?Hc, ?Hseq; cbn));
    match goal with
    | |- context [Packet_serialize ?q] =>
        destruct (Packet_serialize q) as [e|buffer]; cbn
    end;
    try (destruct (dgram_running w) eqn:Hrun; cbn;
           try (destruct (dgram_bound w) eqn:Hbound; cbn));
    rewrite ?lookup_snoc, ?insert_snoc, <- ?app_assoc; cbn;
    rewrite ?lookup_snoc, ?insert_snoc, ?drop_app_length; repeat split.
Qed.

(** X4. [send] past its guards, when [serialize] throws [e]: the promise
    is rejected with [e] and nothing is handed to the UDP socket; the
    getter [sequence] of the connection has been read all the same when the
    packet was an unassigned Command. *)
Theorem X4_send_serialize_throws (connection : loc) (c : Connection)
  (packet : Packet) (resolve : bool) (e : Error) (w : World) :
  heap w !! connection = Some c ->
  valid packet = true ->
  let m := Socket_send (Instance connection) (Instance packet) resolve in
  let unassigned := PacketType_eqb (type packet) Command && (sequence packet <? 0) in
  let packet' :=
    if unassigned
    then set_sequence (fst (Connection_sequence (conn_state c))) packet
    else packet in
  Packet_serialize packet' = inl e ->
  result m w = Returns (length (promises w))
  /\ promises (exec m w) = promises w ++ [Rejected e]
  /\ effects m w
     = (if unassigned then [Get_sequence connection] else [])
       ++ [Call_serialize packet']
  /\ dgram_sending (exec m w) = dgram_sending w.
Proof.
  intros Hc Hvalid m unassigned packet' Hser.
  destruct (Socket_send_outcome connection c packet resolve w Hc Hvalid)
    as [Hres Hout].
  fold unassigned packet' in Hout. rewrite Hser in Hout.
  destruct Hout as (Hp & He & Hs). repeat split; assumption.
Qed.

(** X5. [send] after a [close] on a UDP socket without a queue, when no
    [kill] threw: for a packet that passes the guards and is serialized,
    and a connection whose port the UDP socket accepts, the call of
    [socket.send] throws inside the executor, so the promise is rejected
    with the error of the UDP socket (the call of [send] itself returns),
    and no send is left in flight. *)
Theorem X5_send_after_close (err : option Error) (connection : loc)
  (c : Connection) (packet : Packet) (resolve : bool) (buffer : Buffer)
  (w : World) :
  kill_returns err ->
  dgram_queue w = None ->
  let w1 := exec (Socket_close err) w in
  heap w1 !! connection = Some c ->
  1 <= conn_port c <= 65535 ->
  valid packet = true ->
  let m := Socket_send (Instance connection) (Instance packet) resolve in
  let packet' :=
    if PacketType_eqb (type packet) Command && (sequence packet <? 0)
    then set_sequence (fst (Connection_sequence (conn_state c))) packet
    else packet in
  Packet_serialize packet' = inr buffer ->
  result m w1 = Returns (length (promises w1))
  /\ promises (exec m w1)
     = promises w1 ++ [Rejected ERR_SOCKET_DGRAM_NOT_RUNNING]
  /\ dgram_sending (exec m w1) = dgram_sending w1.
Proof.
  intros Hk Hq w1 Hc _ Hvalid m packet' Hser.
  destruct (Socket_close_returns err w Hk) as (_ & Hclosed & _).
  unfold dgram_closed in Hclosed. rewrite Hq in Hclosed.
  destruct Hclosed as (_ & _ & Hclosed). fold w1 in Hclosed.
  destruct (Socket_send_outcome connection c packet resolve w1 Hc Hvalid)
    as [Hres Hout].
  fold packet' in Hout. rewrite Hser, Hclosed in Hout.
  destruct Hout as (_ & Hp & Hs). repeat split; assumption.
Qed.

(** X6. The send in flight under number [k], made with [resolve = true],
    completes with [nbytes] bytes sent: ['sent'] is emitted, then [store]
    is called on the connection with the packet, [nbytes] and the two
    continuations of the promise. The promise is left pending when [store]
    returns, and is rejected with [e] when [store] throws [e]. *)
Theorem X6_send_tracked_stores (k : nat) (cb : SendCallback) (c : Connection)
  (nbytes : Z) (w : World) :
  dgram_sending w !! k = Some (Some cb) ->
  cb_resolve cb = true ->
  promises w !! cb_promise cb = Some Pending ->
  heap w !! cb_connection cb = Some c ->
  let m := dgram_send_done k (inr nbytes) in
  let s := mkStore (cb_packet cb) nbytes (cb_promise cb) in
  result m w = Returns tt
  /\ effects m w
     = [SocketEmit (Ev_sent (cb_packet cb) (cb_buffer cb) nbytes (cb_connection cb));
        Call_store (cb_connection cb) s]
  /\ promises (exec m w) !! cb_promise cb
     = Some (match fst (Connection_store s (conn_state c)) with
             | Some e => Rejected e
             | None => Pending
             end).
Proof.
  intros Hk Hres Hp Hc m s. subst m s.
  unfold effects, dgram_send_done, send_callback, store, call, rej, settle.
  run. rewrite Hk. cbn. rewrite Hres. cbn. rewrite Hc.
  destruct (Connection_store _ (conn_state c)) as [[e|] st]; cbn;
    rewrite ?Hp, <- ?app_assoc, drop_app_length; repeat split; try exact Hp.
  apply list_lookup_insert_eq. eapply lookup_lt_Some. exact Hp.
Qed.

(** ** [connection]: when nothing is connected *)

(** X7. [connection] calls [connect] or adds a listener only for a new
    address and with [connect = true]: with [connect = false], or when the
    key is already in the registry (the call then throws), the call makes
    no call on any [Connection] or on the UDP socket, and no promise of
    [connect] and no listener is added. *)
Theorem X7_connection_without_connect (details : IConnectionDetails)
  (options : IConnectionOptions) (connect : bool) (w : World) :
  let id := hashAddress (details_ip details) (details_port details) in
  let m := Socket_connection details options connect in
  connect = false \/ obj_get (connections w) id <> None ->
  effects m w = []
  /\ dgram_once_listening (exec m w) = dgram_once_listening w
  /\ connecting (exec m w) = connecting w
  /\ (obj_get (connections w) id = None ->
      result m w = Returns (length (heap w))
      /\ registered (exec m w) id = Some (length (heap w))).
Proof.
  intros id m Hcase. subst m.
  unfold effects, Socket_connection, Connection_new, registered. run. fold id.
  destruct (obj_get (connections w) id) as [l|] eqn:Hget; cbn.
  - rewrite drop_all. do 3 (split; [reflexivity|]). discriminate.
  - destruct Hcase as [-> | Hne]; [|congruence]. cbn.
    rewrite drop_all, obj_get_set, lookup_snoc.
    do 3 (split; [reflexivity|]). intros _. split; reflexivity.
Qed.
(** ** What the handlers leave alone *)

Lemma obj_get_absent_keys {V} (o : list (string * V)) k :
  obj_get o k = None -> ~ In k (obj_keys o).
Proof.
  induction o as [|[k' v'] o IH]; cbn; [tauto|].
  destruct (String.eqb_spec k' k) as [->|Hne]; [discriminate|].
  intros Hget [Heq|Hin]; [congruence | now apply IH].
Qed.

Lemma obj_get_entry {V} (o : list (string * V)) k v :
  NoDup (obj_keys o) -> In (k, v) o -> obj_get o k = Some v.
Proof.
  induction o as [|[k' v'] o IH]; cbn; [tauto|].
  intros Hnd [Heq|Hin]; apply NoDup_cons in Hnd; destruct Hnd as [Hk Hnd].
  - injection Heq as -> ->. now rewrite String.eqb_refl.
  - destruct (String.eqb_spec k' k) as [->|Hne]; [|now apply IH].
    exfalso. apply Hk. apply list_elem_of_In. unfold obj_keys.
    apply in_map_iff. exists (k, v). split; [reflexivity | assumption].
Qed.

Lemma obj_get_snoc_absent {V} (o : list (string * V)) k v :
  obj_get o k = None -> obj_get (o ++ [(k, v)]) k = Some v.
Proof.
  intros Hget. rewrite <- (obj_set_absent _ _ _ Hget). apply obj_get_set.
Qed.

Lemma obj_get_snoc_present {V} (o : list (string * V)) k k' v v' :
  obj_get o k = Some v -> obj_get (o ++ [(k', v')]) k = Some v.
Proof.
  induction o as [|[k0 v0] o IH]; cbn; [discriminate|].
  destruct (String.eqb k0 k); [trivial | exact IH].
Qed.

Section FramingObjects.
Variable R : World -> World -> Prop.
Hypothesis R_refl : forall w, R w w.
Hypothesis R_object : forall w c o s e,
  heap w !! c = Some o ->
  R w (log e (set_heap
                (fun h => <[c := mkConnection (conn_id o) (conn_ip o) (conn_port o) s]> h)
                w)).

Lemma framed_call_object {A} (c : loc) (e : Effect)
  (method : ConnState -> A * ConnState) :
  framed R (call c e method).
Proof.
  intros w. unfold exec, call.
  destruct (heap w !! c) as [o|] eqn:Hc;
    [destruct (method (conn_state o))|]; cbn;
    [now apply R_object | apply R_refl].
Qed.
End FramingObjects.

Lemma objects_frame_refl (w : World) : objects_frame w w.
Proof. intros l c Hc. eauto. Qed.

Lemma objects_frame_trans (w1 w2 w3 : World) :
  objects_frame w1 w2 -> objects_frame w2 w3 -> objects_frame w1 w3.
Proof.
  intros H12 H23 l c Hc.
  destruct (H12 l c Hc) as (c2 & Hc2 & Hi & Ha & Hp).
  destruct (H23 l c2 Hc2) as (c3 & Hc3 & Hi' & Ha' & Hp').
  exists c3. repeat split; congruence.
Qed.

Lemma objects_frame_same (w w' : World) :
  heap w' = heap w -> objects_frame w w'.
Proof. intros Hh l c Hc. rewrite Hh. eauto. Qed.

Lemma objects_frame_alloc (w : World) (c : Connection) :
  objects_frame w (set_heap (fun h => h ++ [c]) w).
Proof.
  intros l c0 Hc. exists c0. cbn. repeat split.
  rewrite lookup_app_l; [exact Hc|]. eapply lookup_lt_Some. exact Hc.
Qed.

Lemma objects_frame_object (w : World) c o s e :
  heap w !! c = Some o ->
  objects_frame w
    (log e (set_heap
              (fun h => <[c := mkConnection (conn_id o) (conn_ip o) (conn_port o) s]> h)
              w)).
Proof.
  intros Ho l c0 Hc. cbn. destruct (decide (l = c)) as [->|Hne].
  - rewrite Ho in Hc. injection Hc as <-.
    eexists. split; [apply list_lookup_insert_eq; eapply lookup_lt_Some; exact Ho|].
    repeat split.
  - exists c0. rewrite list_lookup_insert_ne by congruence. repeat split.
    exact Hc.
Qed.

(** The registry is left as it is and the objects keep their identity. *)
Lemma quiet_refl (w : World) : connections_frame w w /\ objects_frame w w.
Proof. split; [reflexivity | apply objects_frame_refl]. Qed.

Lemma quiet_trans (w1 w2 w3 : World) :
  connections_frame w1 w2 /\ objects_frame w1 w2 ->
  connections_frame w2 w3 /\ objects_frame w2 w3 ->
  connections_frame w1 w3 /\ objects_frame w1 w3.
Proof.
  unfold connections_frame. intros [Hc Ho] [Hc' Ho']. split; [congruence|].
  eapply objects_frame_trans; eassumption.
Qed.

Lemma quiet_object (w : World) c o s e :
  heap w !! c = Some o ->
  let w' := log e (set_heap
                     (fun h => <[c := mkConnection (conn_id o) (conn_ip o) (conn_port o) s]> h)
                     w) in
  connections_frame w w' /\ objects_frame w w'.
Proof. intros Ho. split; [reflexivity | now apply objects_frame_object]. Qed.

Lemma listening_frame_refl (w : World) : listening_frame w w.
Proof. reflexivity. Qed.

Lemma listening_frame_trans (w1 w2 w3 : World) :
  listening_frame w1 w2 -> listening_frame w2 w3 -> listening_frame w1 w3.
Proof. unfold listening_frame. congruence. Qed.

Lemma listening_frame_call (w : World) c o e :
  listening_frame w (log e (set_heap (fun h => <[c := o]> h) w)).
Proof. reflexivity. Qed.

Ltac framed_by Hrefl Htrans call_tac modify_tac :=
  repeat first
    [ apply (framed_ret _ Hrefl) | apply (framed_throw _ Hrefl)
    | apply (framed_gets _ Hrefl) | call_tac
    | apply framed_try
    | apply (framed_for_each _ Hrefl Htrans); intros ?
    | apply (framed_bind _ Htrans); [|intros ?]
    | apply framed_modify; intros ?; solve [modify_tac]
    | match goal with
      | |- framed _ (match ?x with _ => _ end) => destruct x
      | |- framed _ (let (_, _) := ?x in _) => destruct x
      end ].

Ltac framed_quiet :=
  framed_by quiet_refl quiet_trans
    ltac:(apply (framed_call_object _ quiet_refl quiet_object))
    ltac:(split; [reflexivity | apply objects_frame_same; reflexivity]).

Ltac framed_objects :=
  framed_by objects_frame_refl objects_frame_trans
    ltac:(apply (framed_call_object _ objects_frame_refl objects_frame_object))
    ltac:(first [apply objects_frame_same; reflexivity
                | apply objects_frame_alloc]).

Ltac framed_listening :=
  framed_by listening_frame_refl listening_frame_trans
    ltac:(apply (framed_call _ listening_frame_refl listening_frame_call))
    ltac:(reflexivity).

Ltac unfold_handlers :=
  unfold Socket_connection, Connection_new, listening, connect_catch,
    dgram_once_listening_add, Socket_send, send_executor, new_promise, rej,
    res, settle, instanceof_Connection, assign_sequence, get_sequence,
    serialize, dgram_send, dgram_enqueue, Socket_close, close_connection, kill,
    dgram_close, dgram_clear_queue,
    Socket_receive, FROM, recieve, emit, connection_emit,
    dgram_emit_listening, on_listening, dgram_emit_error, on_error,
    dgram_emit_close, on_close, dgram_emit_message, dgram_send_done,
    send_callback, store, connect_settled.

Ltac as_framed :=
  match goal with
  | |- ?R ?w (exec ?m ?w) => revert w; change (framed R m)
  end.

(** Every step but a call of [connection] leaves the registry as it is,
    and the objects with their identity. *)
Lemma perform_quiet (a : Action) (w : World) :
  match a with
  | Do_connection _ _ _ => True
  | _ => connections_frame w (perform a w) /\ objects_frame w (perform a w)
  end.
Proof.
  destruct a; cbn [perform]; [exact I|..];
    match goal with
    | |- ?P ?w (exec ?m ?w) /\ ?Q ?w (exec ?m ?w) =>
        revert w;
        change (framed (fun w w' => connections_frame w w' /\ objects_frame w w') m)
    end;
    unfold_handlers; framed_quiet.
Qed.
Lemma framed_objects_connection details options connect :
  framed objects_frame (Socket_connection details options connect).
Proof. unfold_handlers. framed_objects. Qed.

(** What [connection] does to the registry and to the heap. *)
Lemma Socket_connection_shape (details : IConnectionDetails)
  (options : IConnectionOptions) (connect : bool) (w : World) :
  let id := hashAddress (details_ip details) (details_port details) in
  let w' := exec (Socket_connection details options connect) w in
  match obj_get (connections w) id with
  | Some _ => connections w' = connections w
  | None =>
      connections w' = connections w ++ [(id, length (heap w))]
      /\ exists c, heap w' !! length (heap w) = Some c
                   /\ conn_id c = id
                   /\ conn_ip c = details_ip details
                   /\ conn_port c = details_port details
  end.
Proof.
  intros id w'. subst w'.
  destruct (obj_get (connections w) id) as [l|] eqn:Hget.
  - unfold Socket_connection, Connection_new. run. fold id.
    rewrite Hget. reflexivity.
  - destruct connect; [destruct (info_listening w) eqn:Hl|];
      unfold Socket_connection, Connection_new, connect_catch, call,
        dgram_once_listening_add; run; fold id;
      repeat (progress (rewrite ?Hget, ?Hl, ?insert_snoc, ?lookup_snoc; cbn));
      rewrite (obj_set_absent _ _ _ Hget);
      (split; [reflexivity | eexists; repeat split; reflexivity]).
Qed.

Lemma objects_perform (a : Action) (w : World) :
  objects_frame w (perform a w).
Proof.
  pose proof (perform_quiet a w) as Hq.
  destruct a; try (now destruct Hq).
  apply framed_objects_connection.
Qed.

Lemma objects_perform_all (actions : list Action) (w : World) :
  objects_frame w (perform_all actions w).
Proof.
  revert w. induction actions as [|a actions IH]; intros w; cbn.
  - apply objects_frame_refl.
  - eapply objects_frame_trans; [apply objects_perform | apply IH].
Qed.

Lemma registered_perform (a : Action) (w : World) (id : string) (l : loc) :
  registered w id = Some l -> registered (perform a w) id = Some l.
Proof.
  intros Hreg.
  assert (Hget : obj_get (connections w) id = Some l /\ is_Some (heap w !! l)).
  { unfold registered in Hreg.
    destruct (obj_get (connections w) id) as [l'|]; [|discriminate].
    destruct (heap w !! l') eqn:E; [|discriminate].
    injection Hreg as ->. rewrite E. eauto. }
  destruct Hget as [Hget [c Hc]].
  destruct (objects_perform a w l c Hc) as (c' & Hc' & _).
  assert (Hget' : obj_get (connections (perform a w)) id = Some l).
  { pose proof (perform_quiet a w) as Hq.
    destruct a;
      try (unfold connections_frame in Hq; rewrite (proj1 Hq); exact Hget).
    cbn [perform].
    pose proof (Socket_connection_shape details options connect w) as Hs.
    cbv zeta in Hs.
    destruct (obj_get (connections w)
                (hashAddress (details_ip details) (details_port details)));
      [now rewrite Hs|].
    destruct Hs as [Hs _]. rewrite Hs. now apply obj_get_snoc_present. }
  unfold registered. now rewrite Hget', Hc'.
Qed.

Lemma registered_perform_all (actions : list Action) (w : World)
  (id : string) (l : loc) :
  registered w id = Some l -> registered (perform_all actions w) id = Some l.
Proof.
  revert w. induction actions as [|a actions IH]; intros w Hreg; cbn.
  - exact Hreg.
  - apply IH. now apply registered_perform.
Qed.

(** X10. A registration is permanent: over any run of calls and events
    ([close], the ['error'] and ['close'] events of the UDP socket and
    the kills they make included), a registered [Connection] stays
    registered under its key, and is the same object, with the same [id],
    [ip] and [port]. *)
Theorem X10_registration_is_permanent (actions : list Action) (w : World)
  (id : string) (l : loc) (c : Connection) :
  registered w id = Some l ->
  heap w !! l = Some c ->
  registered (perform_all actions w) id = Some l
  /\ exists c', heap (perform_all actions w) !! l = Some c'
                /\ conn_id c' = conn_id c
                /\ conn_ip c' = conn_ip c
                /\ conn_port c' = conn_port c.
Proof.
  intros Hreg Hc. split.
  - now apply registered_perform_all.
  - now apply objects_perform_all.
Qed.

(** X11. Only [connection] writes the registry: every other call and
    every event (a datagram from an unknown address in particular) leaves
    [this.connections] exactly as it was. *)
Theorem X11_only_connection_registers (a : Action) (w : World) :
  (forall details options connect, a <> Do_connection details options connect) ->
  connections (perform a w) = connections w.
Proof.
  intros Hne. pose proof (perform_quiet a w) as Hq.
  destruct a; try (now destruct Hq).
  exfalso. now apply (Hne details options connect).
Qed.

(** ** The registry invariant *)

Lemma registry_ok_quiet (w w' : World) :
  connections_frame w w' -> objects_frame w w' ->
  registry_ok w -> registry_ok w'.
Proof.
  unfold connections_frame. intros Hc Ho (Hk & Hl & He).
  unfold registry_ok. rewrite Hc. repeat split; try assumption.
  intros id l Hin. destruct (He id l Hin) as (c & Hh & Hi & Hhash).
  destruct (Ho l c Hh) as (c' & Hh' & Hi' & Ha' & Hp').
  exists c'. repeat split; congruence.
Qed.

Lemma registry_ok_connection details options connect (w : World) :
  registry_ok w ->
  registry_ok (exec (Socket_connection details options connect) w).
Proof.
  intros Hok.
  pose proof (framed_objects_connection details options connect w) as Ho.
  pose proof (Socket_connection_shape details options connect w) as Hs.
  cbv zeta in Hs.
  set (id := hashAddress (details_ip details) (details_port details)) in *.
  destruct (obj_get (connections w) id) eqn:Hget.
  - now apply (registry_ok_quiet w).
  - destruct Hs as (Hconn & c & Hc & Hi & Ha & Hp).
    destruct Hok as (Hk & Hl & He).
    unfold registry_ok. rewrite Hconn. unfold obj_keys.
    rewrite !map_app. cbn. repeat split.
    + apply NoDup_app. repeat split; [exact Hk | | repeat constructor].
      * intros k Hin Hin'. apply list_elem_of_In in Hin.
        apply list_elem_of_In in Hin'. destruct Hin' as [<-|[]].
        now apply (obj_get_absent_keys _ _ Hget).
      * intros Hin. apply list_elem_of_In in Hin. destruct Hin.
    + apply NoDup_app. repeat split; [exact Hl | | repeat constructor].
      * intros l Hin Hin'. apply list_elem_of_In in Hin.
        apply list_elem_of_In in Hin'. destruct Hin' as [<-|[]].
        apply in_map_iff in Hin. destruct Hin as ([id0 l0] & Heq & Hin).
        cbn in Heq. subst l0.
        destruct (He id0 _ Hin) as (c0 & Hc0 & _).
        apply lookup_lt_Some in Hc0. lia.
      * intros Hin. apply list_elem_of_In in Hin. destruct Hin.
    + intros id0 l0 Hin. apply in_app_or in Hin. destruct Hin as [Hin|[Heq|[]]].
      * destruct (He id0 l0 Hin) as (c0 & Hc0 & Hi0 & Hh0).
        destruct (Ho l0 c0 Hc0) as (c' & Hc' & Hi' & Ha' & Hp').
        exists c'. repeat split; congruence.
      * injection Heq as <- <-. exists c. repeat split; try assumption.
        subst id. now rewrite Ha, Hp.
Qed.

(** X9. The registry invariant: in every world a [Socket] can reach, no
    key is registered twice, no [Connection] is registered under two keys,
    and every entry is a [Connection] whose [id] is its key, which is the
    hash of its own address and port. *)
Theorem X9_registry_reachable (w : World) : reachable w -> registry_ok w.
Proof.
  induction 1 as [|w a _ IH].
  - repeat split; cbn; try constructor. intros id l [].
  - pose proof (perform_quiet a w) as Hq.
    destruct a; try (destruct Hq; now apply (registry_ok_quiet w)).
    now apply registry_ok_connection.
Qed.
(** ** [close] on a reachable registry *)

Lemma omap_entries {A} (f : string -> option A) (o : list (string * A)) :
  (forall id l, In (id, l) o -> f id = Some l) ->
  omap f (obj_keys o) = map snd o.
Proof.
  induction o as [|[id l] o IH]; intros Hf; [reflexivity|].
  change (omap f (obj_keys ((id, l) :: o)))
    with (match f id with
          | Some y => y :: omap f (obj_keys o)
          | None => omap f (obj_keys o)
          end).
  rewrite (Hf id l) by now left. cbn. f_equal.
  apply IH. intros id' l' Hin. apply Hf. now right.
Qed.

Lemma registered_connections_ok (w : World) :
  registry_ok w -> registered_connections w = map snd (connections w).
Proof.
  intros (Hk & _ & He). unfold registered_connections.
  apply omap_entries. intros id l Hin.
  destruct (He id l Hin) as (c & Hc & _).
  unfold registered. now rewrite (obj_get_entry _ _ _ Hk Hin), Hc.
Qed.

(** X14. [close(err)] on a registry that satisfies the invariant, when no
    [kill] throws: [kill] is called with [err] on every [Connection] of the
    registry, in the order in which they were registered, each exactly
    once, and then [close] is called on the UDP socket. *)
Theorem X14_close_kills_each_once (err : option Error) (w : World) :
  registry_ok w ->
  kill_returns err ->
  effects (Socket_close err) w
  = map (fun l => Call_kill l err) (map snd (connections w)) ++ [Dgram_close]
  /\ NoDup (map snd (connections w))
  /\ connections (exec (Socket_close err) w) = connections w.
Proof.
  intros Hok Hk.
  destruct (Socket_close_returns err w Hk) as (Ht & _ & Hc & _).
  rewrite (registered_connections_ok w Hok) in Ht.
  split; [now apply effects_log|]. split; [apply Hok | exact Hc].
Qed.

(** ** The ['listening'] event *)

Lemma once_loop_exact (once : list loc) (w : World) :
  Forall (fun l => (l < length (heap w))%nat) once ->
  exists w',
    for_each once connect_catch w = (Returns tt, w')
    /\ trace w' = trace w ++ deferred_connects once (length (connecting w))
    /\ connecting w' = connecting w ++ replicate (length once) Pending
    /\ dgram_once_listening w' = dgram_once_listening w
    /\ info_listening w' = info_listening w
    /\ length (heap w') = length (heap w).
Proof.
  revert w. induction once as [|l once IH]; intros w Hvalid.
  - exists w. cbn. unfold ret, deferred_connects. cbn.
    rewrite !app_nil_r. repeat split.
  - inversion Hvalid as [|? ? Hl Hrest]; subst.
    destruct (connect_catch_run l w Hl)
      as (w1 & Hrun1 & Ht1 & Hg1 & _ & Hh1 & Hi1 & Ho1).
    rewrite <- Hh1 in Hrest.
    destruct (IH w1 Hrest) as (w' & Hrun & Ht & Hg & Ho & Hi & Hh).
    exists w'. cbn [for_each]. unfold bind at 1. rewrite Hrun1, Hrun.
    split; [reflexivity|].
    rewrite Ht, Ht1, Hg, Hg1, Ho, Ho1, Hi, Hi1, Hh, Hh1, length_app.
    cbn [length]. rewrite Nat.add_1_r, <- !app_assoc.
    repeat split.
Qed.

Lemma dgram_emit_listening_exact (w : World) :
  Forall (fun l => (l < length (heap w))%nat) (dgram_once_listening w) ->
  let m := dgram_emit_listening in
  result m w = Returns tt
  /\ trace (exec m w)
     = trace w ++ SocketEmit Ev_listening
       :: deferred_connects (dgram_once_listening w) (length (connecting w))
  /\ connecting (exec m w)
     = connecting w ++ replicate (length (dgram_once_listening w)) Pending
  /\ dgram_once_listening (exec m w) = []
  /\ length (heap (exec m w)) = length (heap w).
Proof.
  intros Hvalid m. subst m.
  set (w1 := set_dgram_once_listening (fun _ => [])
               (log (SocketEmit Ev_listening)
                  (set_info_listening true (set_dgram_bound true w)))).
  destruct (once_loop_exact (dgram_once_listening w) w1 Hvalid)
    as (w2 & Hloop & Ht & Hg & Ho & _ & Hh).
  destruct (dgram_clear_queue_run w2)
    as (w' & Hclear & Ht' & Hg' & _ & Hh' & _ & Ho' & _).
  assert (Hm : dgram_emit_listening w = (Returns tt, w')).
  { unfold dgram_emit_listening, on_listening. run. fold w1.
    rewrite Hloop. exact Hclear. }
  unfold exec, result. rewrite Hm. cbn.
  rewrite Ht', Hg', Hh', Ho', Ht, Hg, Ho, Hh. cbn.
  rewrite <- app_assoc. repeat split.
Qed.

(** X8. The UDP socket emits ['listening'], in a world that satisfies
    [wf]: the [Socket] emits ['listening'], then [connect] is called once
    on each connection whose [connect] was deferred, in the order of the
    calls of [connection], and the listeners are gone: a second
    ['listening'] event calls no [connect]. *)
Theorem X8_listening_connects_deferred_once (w : World) :
  wf w ->
  let m := dgram_emit_listening in
  result m w = Returns tt
  /\ effects m w
     = SocketEmit Ev_listening
       :: deferred_connects (dgram_once_listening w) (length (connecting w))
  /\ connecting (exec m w)
     = connecting w ++ replicate (length (dgram_once_listening w)) Pending
  /\ dgram_once_listening (exec m w) = []
  /\ effects m (exec m w) = [SocketEmit Ev_listening].
Proof.
  intros Hwf m. subst m.
  assert (Hvalid : Forall (fun l => (l < length (heap w))%nat)
                     (dgram_once_listening w)).
  { unfold wf in Hwf. apply Forall_app in Hwf. apply Hwf. }
  destruct (dgram_emit_listening_exact w Hvalid) as (Hres & Ht & Hg & Ho & _).
  assert (Hvalid' : Forall (fun l => (l < length (heap (exec dgram_emit_listening w)))%nat)
                      (dgram_once_listening (exec dgram_emit_listening w)))
    by (rewrite Ho; constructor).
  destruct (dgram_emit_listening_exact _ Hvalid') as (_ & Ht' & _).
  rewrite Ho in Ht'. cbn in Ht'.
  repeat split; try assumption; now apply effects_log.
Qed.

(** ** The getter [listening] *)

Lemma framed_listening_close err : framed listening_frame (Socket_close err).
Proof. unfold_handlers. framed_listening. Qed.

(** X12. What the getter [listening] returns changes only with the events
    of the UDP socket: it is true after ['listening'] and false after
    ['error'] and after ['close']; every method of the [Socket], [close]
    included, every datagram and every completion leave it as it was. *)
Theorem X12_listening_follows_events (a : Action) (w : World) :
  info_listening (perform a w)
  = match a with
    | On_listening => true
    | On_error _ | On_close => false
    | _ => info_listening w
    end.
Proof.
  destruct a; cbn [perform];
    try (change (listening_frame w (exec (Socket_connection details options connect) w))
         || change (listening_frame w (exec (Socket_send connection packet resolve) w))
         || change (listening_frame w (exec (Socket_close err) w))
         || change (listening_frame w (exec (dgram_emit_message buffer info) w))
         || change (listening_frame w (exec (dgram_send_done k r) w))
         || change (listening_frame w (exec (connect_settled p r) w)));
    try (as_framed; unfold_handlers; framed_listening).
  - set (w0 := set_info_listening true (set_dgram_bound true w)).
    change (info_listening
              (exec (emit Ev_listening;;;
                     let* once := gets dgram_once_listening in
                     modify (set_dgram_once_listening (fun _ => []));;;
                     for_each once connect_catch;;;
                     dgram_clear_queue) w0)
            = info_listening w0).
    revert w0. generalize (set_info_listening true (set_dgram_bound true w)).
    intros w0.
    change (listening_frame w0
              (exec (emit Ev_listening;;;
                     let* once := gets dgram_once_listening in
                     modify (set_dgram_once_listening (fun _ => []));;;
                     for_each once connect_catch;;;
                     dgram_clear_queue) w0)).
    as_framed. unfold_handlers. framed_listening.
  - change (info_listening
              (exec (Socket_close (Some err))
                 (log (SocketEmit (Ev_error err))
                    (set_info_listening false (set_dgram_queue None w))))
            = false).
    now rewrite (framed_listening_close (Some err) _).
  - reflexivity.
Qed.
(** ** From [connection] to [receive] *)

(** X13. Routing: once [connection] has returned a [Connection] for an
    address and a port, then, whatever calls and events follow, a datagram
    from that address and port that decodes to a valid packet is handed to
    [recieve] of that [Connection], and ['received'] is emitted on the
    [Socket] and on it; it is never reported as an unknown connection. *)
Theorem X13_datagrams_reach_their_connection (details : IConnectionDetails)
  (options : IConnectionOptions) (connect : bool) (actions : list Action)
  (buffer : Buffer) (info : RemoteInfo) (packet : Packet) (w : World) :
  let id := hashAddress (details_ip details) (details_port details) in
  let conn := length (heap w) in
  let w1 := perform_all actions
              (exec (Socket_connection details options connect) w) in
  obj_get (connections w) id = None ->
  address info = details_ip details ->
  port info = details_port details ->
  Packet_FROM buffer = inr packet ->
  valid packet = true ->
  registered w1 id = Some conn
  /\ exists resolved,
       effects (Socket_receive buffer info) w1
       = [Call_FROM buffer; Call_recieve conn packet;
          SocketEmit (Ev_received resolved packet buffer conn info);
          ConnectionEmit conn (CEv_received resolved packet buffer info)].
Proof.
  intros id conn w1 Hget Haddr Hport Hdec Hvalid.
  set (w0 := exec (Socket_connection details options connect) w) in *.
  pose proof (Socket_connection_shape details options connect w) as Hs.
  cbv zeta in Hs. fold id w0 in Hs. rewrite Hget in Hs.
  destruct Hs as (Hconn & c0 & Hc0 & _).
  assert (Hreg0 : registered w0 id = Some conn).
  { unfold registered, conn.
    now rewrite Hconn, (obj_get_snoc_absent _ _ _ Hget), Hc0. }
  assert (Hreg1 : registered w1 id = Some conn)
    by now apply registered_perform_all.
  destruct (objects_perform_all actions w0 conn c0 Hc0) as (c1 & Hc1 & _).
  fold w1 in Hc1.
  split; [exact Hreg1|].
  assert (Hkey : registered w1 (hashAddress (address info) (port info)) = Some conn)
    by now rewrite Haddr, Hport.
  pose proof (Socket_receive_valid_run buffer info w1 conn c1 packet
                Hkey Hc1 Hdec Hvalid) as Hrun. cbv zeta in Hrun.
  exists (fst (Connection_recieve packet (conn_state c1))).
  unfold effects, exec. rewrite Hrun. cbn.
  now rewrite <- !app_assoc, drop_app_length.
Qed.
(** ** [connect] is called at most once *)

Lemma connects_app (l : loc) (t t' : list Effect) :
  connects l (t ++ t') = (connects l t + connects l t')%nat.
Proof.
  induction t as [|e t IH]; cbn; [reflexivity|].
  destruct e; cbn; rewrite IH; lia.
Qed.

Lemma connects_none (l : loc) (es : list Effect) :
  forallb (fun e => negb (is_connect e)) es = true -> connects l es = 0%nat.
Proof.
  induction es as [|e es IH]; cbn; [reflexivity|].
  intros H. apply andb_true_iff in H. destruct H as [He Hes].
  destruct e; cbn in *; try discriminate; now apply IH.
Qed.

Lemma deferred_app (l : loc) (o o' : list loc) :
  deferred l (o ++ o') = (deferred l o + deferred l o')%nat.
Proof. induction o as [|c o IH]; cbn; [reflexivity | rewrite IH; lia]. Qed.

Lemma deferred_In (l : loc) (once : list loc) :
  In l once -> (1 <= deferred l once)%nat.
Proof.
  induction once as [|c once IH]; cbn; [tauto|].
  intros [->|Hin]; [rewrite Nat.eqb_refl; lia|].
  specialize (IH Hin). lia.
Qed.

Lemma connects_deferred (l : loc) (once : list loc) (p : pid) :
  connects l (deferred_connects once p) = deferred l once.
Proof.
  revert p. induction once as [|c once IH]; intros p; [reflexivity|].
  unfold deferred_connects in *. cbn. now rewrite IH.
Qed.

Lemma connect_once_valid (w : World) :
  connect_once w ->
  Forall (fun l => (l < length (heap w))%nat) (dgram_once_listening w).
Proof.
  intros Hw. apply List.Forall_forall. intros l Hin.
  pose proof (deferred_In l _ Hin). specialize (Hw l).
  destruct (Nat.ltb_spec l (length (heap w))); lia.
Qed.

Lemma connect_once_frame (w w' : World) :
  no_connect_frame w w' -> connect_once w -> connect_once w'.
Proof.
  intros (Ho & Hh & es & Ht & Hes) Hw l. specialize (Hw l).
  rewrite Ho, Ht, connects_app, (connects_none l es Hes).
  destruct (Nat.ltb_spec l (length (heap w)));
    destruct (Nat.ltb_spec l (length (heap w'))); lia.
Qed.

Lemma no_connect_refl (w : World) : no_connect_frame w w.
Proof.
  repeat split; [lia|]. exists []. now rewrite app_nil_r.
Qed.

Lemma no_connect_trans (w1 w2 w3 : World) :
  no_connect_frame w1 w2 -> no_connect_frame w2 w3 -> no_connect_frame w1 w3.
Proof.
  intros (Ho & Hh & es & Ht & Hes) (Ho' & Hh' & es' & Ht' & Hes').
  repeat split; [congruence | lia |].
  exists (es ++ es'). rewrite Ht', Ht, <- app_assoc. split; [reflexivity|].
  rewrite forallb_app. now rewrite Hes, Hes'.
Qed.

Lemma no_connect_log (e : Effect) (w : World) :
  is_connect e = false -> no_connect_frame w (log e w).
Proof.
  intros He. repeat split; [cbn; lia|]. exists [e]. split; [reflexivity|].
  cbn. now rewrite He.
Qed.

Lemma no_connect_same (w w' : World) :
  dgram_once_listening w' = dgram_once_listening w ->
  heap w' = heap w -> trace w' = trace w -> no_connect_frame w w'.
Proof.
  intros Ho Hh Ht. repeat split; [exact Ho | rewrite Hh; lia |].
  exists []. now rewrite app_nil_r.
Qed.

Lemma framed_call_no_connect {A} (c : loc) (e : Effect)
  (method : ConnState -> A * ConnState) :
  is_connect e = false -> framed no_connect_frame (call c e method).
Proof.
  intros He w. unfold exec, call.
  destruct (heap w !! c) as [o|]; [destruct (method (conn_state o))|]; cbn;
    [|apply no_connect_refl].
  repeat split; cbn; [rewrite length_insert; lia|].
  exists [e]. split; [reflexivity|]. cbn. now rewrite He.
Qed.

Ltac framed_no_connect :=
  framed_by no_connect_refl no_connect_trans
    ltac:(apply framed_call_no_connect; reflexivity)
    ltac:(first [apply no_connect_same; reflexivity
                | apply no_connect_log; reflexivity]).

(** Every step but a call of [connection] and the ['listening'] event
    calls no [connect]. *)
Lemma perform_no_connect (a : Action) (w : World) :
  match a with
  | Do_connection _ _ _ | On_listening => True
  | _ => no_connect_frame w (perform a w)
  end.
Proof.
  destruct a; cbn [perform]; try exact I;
    as_framed; unfold_handlers; framed_no_connect.
Qed.

Lemma Socket_connection_connects details options connect (w : World) :
  let w' := exec (Socket_connection details options connect) w in
  let n := length (heap w) in
  length (heap w') = S n
  /\ (trace w' = trace w
      /\ dgram_once_listening w' = dgram_once_listening w
      \/ (exists p, trace w' = trace w ++ [Call_connect n p])
         /\ dgram_once_listening w' = dgram_once_listening w
      \/ trace w' = trace w ++ [Dgram_once_listening n]
         /\ dgram_once_listening w' = dgram_once_listening w ++ [n]).
Proof.
  unfold Socket_connection, Connection_new, connect_catch, call,
    dgram_once_listening_add. run.
  destruct (obj_get (connections w) _); cbn;
    [|destruct connect; [destruct (info_listening w) eqn:Hlis|]; cbn;
      repeat (progress (rewrite ?Hlis, ?lookup_snoc; cbn))];
    rewrite ?length_insert, ?length_app, Nat.add_1_r;
    (split; [reflexivity|]); eauto 6.
Qed.

Lemma connect_once_connection details options connect (w : World) :
  connect_once w ->
  connect_once (exec (Socket_connection details options connect) w).
Proof.
  intros Hw l. pose proof (Hw l) as Hl. pose proof (Hw (length (heap w))) as Hn.
  rewrite Nat.ltb_irrefl in Hn.
  destruct (Socket_connection_connects details options connect w)
    as (Hh & [[Ht Ho] | [[[p Ht] Ho] | [Ht Ho]]]);
    rewrite Hh, Ht, Ho, ?connects_app, ?deferred_app; cbn -[Nat.ltb];
    destruct (Nat.eqb_spec (length (heap w)) l) as [Heq|Hne];
    rewrite <- ?Heq in *;
    destruct (Nat.ltb_spec (length (heap w)) (length (heap w)));
    destruct (Nat.ltb_spec l (length (heap w)));
    destruct (Nat.ltb_spec l (S (length (heap w))));
    destruct (Nat.ltb_spec (length (heap w)) (S (length (heap w)))); lia.
Qed.

Lemma connect_once_listening (w : World) :
  connect_once w -> connect_once (exec dgram_emit_listening w).
Proof.
  intros Hw l.
  destruct (dgram_emit_listening_exact w (connect_once_valid w Hw))
    as (_ & Ht & _ & Ho & Hh).
  rewrite Ht, Ho, Hh, connects_app. cbn -[Nat.ltb].
  rewrite connects_deferred. specialize (Hw l).
  destruct (Nat.ltb l (length (heap w))); lia.
Qed.

Lemma connect_once_reachable (w : World) : reachable w -> connect_once w.
Proof.
  induction 1 as [|w a _ IH].
  - intros l. cbn. lia.
  - pose proof (perform_no_connect a w) as Hq.
    destruct a; try (now apply (connect_once_frame w)).
    + now apply connect_once_connection.
    + now apply connect_once_listening.
Qed.

(** X15. The [Socket] calls [connect] at most once on a [Connection]: in
    every world it can reach, the trace holds at most one call of
    [connect] for each connection, and none for a connection whose
    [connect] is still deferred to the ['listening'] event. *)
Theorem X15_connect_at_most_once (w : World) (l : loc) :
  reachable w ->
  (connects l (trace w) <= 1)%nat
  /\ (In l (dgram_once_listening w) -> connects l (trace w) = 0%nat).
Proof.
  intros Hreach. pose proof (connect_once_reachable w Hreach l) as Hl.
  split.
  - destruct (Nat.ltb l (length (heap w))); lia.
  - intros Hin. pose proof (deferred_In l _ Hin).
    destruct (Nat.ltb l (length (heap w))); lia.
Qed.
End Properties.










(** * The properties on concrete runs *)

Example crc32_check :
  crc32 [Byte.x31; Byte.x32; Byte.x33; Byte.x34; Byte.x35; Byte.x36; Byte.x37;
         Byte.x38; Byte.x39] = 0xCBF43926.
Proof. vm_compute. reflexivity. Qed.

Example decode_encode :
  match encode (set_sequence 7 players) with
  | inr frame => decode frame = inr (set_sequence 7 players)
  | inl _ => False
  end.
Proof. vm_compute. reflexivity. Qed.

Example decode_short : decode [Byte.x42; Byte.x45] = inl DecodeError.
Proof. reflexivity. Qed.

Example decode_corrupt :
  decode corrupt_frame = inr (mkPacket Command 0 false [Byte.x71]).
Proof. vm_compute. reflexivity. Qed.

Example connection_twice :
  result (Socket_connection server no_options true) world_registered
  = Throws ConnectionExists.
Proof. reflexivity. Qed.

Example connect_deferred :
  effects (Socket_connection server no_options true) Socket_new
  = [Dgram_once_listening 0%nat]
  /\ effects dgram_emit_listening world_registered
     = [SocketEmit Ev_listening; Call_connect 0%nat 0%nat].
Proof. split; reflexivity. Qed.

Example receive_corrupt :
  effects (Socket_receive corrupt_frame server_info) world_listening
  = [Call_FROM corrupt_frame; SocketEmit (Ev_error InvalidPacket);
     ConnectionEmit 0%nat (CEv_error InvalidPacket)].
Proof. vm_compute. reflexivity. Qed.

Example send_tracked_stores :
  effects (dgram_send_done 0 (inr 9))
    (exec (Socket_send (Instance 0%nat) (Instance players) true) world_listening)
  = [SocketEmit (Ev_sent (set_sequence 0 players) players_frame 9 0%nat);
     Call_store 0%nat (mkStore (set_sequence 0 players) 9 0%nat)].
Proof. vm_compute. reflexivity. Qed.

Example error_shuts_down :
  effects (dgram_emit_error (Thrown "Error" "EADDRINUSE")) world_listening
  = [SocketEmit (Ev_error (Thrown "Error" "EADDRINUSE"));
     Call_kill 0%nat (Some (Thrown "Error" "EADDRINUSE")); Dgram_close].
Proof. vm_compute. reflexivity. Qed.

Example close_queued :
  let w1 := exec (Socket_close None) world_queued in
  let w2 := exec (Socket_close None) w1 in
  dgram_queue world_queued = Some [Queued_send]
  /\ result (Socket_close None) world_queued = Returns tt
  /\ result (Socket_close None) w1 = Returns tt
  /\ dgram_running w2 = true
  /\ dgram_queue w2 = Some [Queued_send; Queued_close; Queued_close]
  /\ promises (exec (Socket_send (Instance 0%nat) (Instance players) false) w2)
     = [Pending; Pending]
  /\ dgram_running (exec dgram_emit_listening w2) = false
  /\ dgram_queue (exec dgram_emit_listening w2) = None.
Proof. vm_compute. repeat split. Qed.

Example error_drops_queue :
  let m := dgram_emit_error (Thrown "Error" "EADDRINUSE") in
  result m world_queued = Returns tt
  /\ dgram_queue (exec m world_queued) = None
  /\ dgram_running (exec m world_queued) = false.
Proof. vm_compute. repeat split. Qed.

Example world_sending_reachable : reachable world_sending.
Proof.
  apply (reachable_step _ (Do_send (Instance 0%nat) (Instance players) false)).
  apply (reachable_step _ On_listening).
  apply (reachable_step _ (Do_connection server no_options true)).
  apply reachable_new.
Qed.

(** C1, as stated, fails. The server is registered and sends an empty
    datagram: the decoder throws a DecodeError, and that error, not
    [InvalidPacket], is what [receive] emits. *)
Lemma C1_receive_decode_error_counterexample :
  registered world_registered
    (hashAddress (address server_info) (port server_info)) = Some 0%nat
  /\ Packet_FROM [] = inl DecodeError
  /\ ~ In (SocketEmit (Ev_error InvalidPacket))
          (effects (Socket_receive [] server_info) world_registered)
  /\ ~ In (ConnectionEmit 0%nat (CEv_error InvalidPacket))
          (effects (Socket_receive [] server_info) world_registered).
Proof.
  split; [reflexivity|]. split; [reflexivity|].
  split; vm_compute; intros [H|[H|[H|[]]]]; discriminate.
Qed.

Lemma C1_receive_invalid_datagram_witness :
  registered world_registered
    (hashAddress (address server_info) (port server_info)) = Some 0%nat
  /\ Packet_FROM [] = inl DecodeError
  /\ effects (Socket_receive [] server_info) world_registered
     = [Call_FROM []; SocketEmit (Ev_error DecodeError);
        ConnectionEmit 0%nat (CEv_error DecodeError)].
Proof.
  split; [reflexivity|]. split; [reflexivity|].
  apply (C1_receive_invalid_datagram [] server_info world_registered 0%nat
           DecodeError);
    [reflexivity | left; reflexivity].
Defined.





Lemma C4_send_invalid_packet_witness :
  valid corrupt = false
  /\ promises (exec (Socket_send (Instance 0%nat) (Instance corrupt) true)
                 world_listening)
     = [Rejected InvalidPacket].
Proof.
  split; [reflexivity|].
  apply (C4_send_invalid_packet (Instance 0%nat) corrupt true world_listening).
  reflexivity.
Defined.

Lemma C5_receive_unknown_connection_witness :
  registered world_registered
    (hashAddress (address stranger_info) (port stranger_info)) = None
  /\ effects (Socket_receive [] stranger_info) world_registered
     = [SocketEmit (Ev_error (UnknownConnection "10.0.0.9:2302" "10.0.0.9" 2302))].
Proof.
  split; [reflexivity|].
  destruct (C5_receive_unknown_connection [] stranger_info world_registered)
    as (_ & Heff & _); [reflexivity | exact Heff].
Defined.

Lemma C6_send_transport_error_witness :
  dgram_sending world_sending !! 0%nat = Some (Some players_callback)
  /\ promises world_sending !! cb_promise players_callback = Some Pending
  /\ promises (exec (dgram_send_done 0 (inl (Thrown "Error" "EPERM")))
                 world_sending) !! 0%nat
     = Some (Rejected (Thrown "Error" "EPERM")).
Proof.
  split; [reflexivity|]. split; [reflexivity|].
  apply (C6_send_transport_error 0 players_callback (Thrown "Error" "EPERM")
           world_sending); reflexivity.
Defined.

Lemma C7_send_assigns_sequence_witness :
  heap world_listening !! 0%nat = Some server_connection
  /\ valid players = true
  /\ exists tail,
       effects (Socket_send (Instance 0%nat) (Instance players) false)
         world_listening
       = [Get_sequence 0%nat; Call_serialize (set_sequence 0 players)] ++ tail.
Proof.
  split; [reflexivity|]. split; [reflexivity|].
  destruct (C7_send_assigns_sequence 0%nat server_connection players false
              world_listening)
    as (_ & _ & tail & Heff & _); [reflexivity | reflexivity |].
  exists tail. exact Heff.
Defined.

Lemma C8_send_untracked_resolves_witness :
  dgram_sending world_sending !! 0%nat = Some (Some players_callback)
  /\ cb_resolve players_callback = false
  /\ promises world_sending !! cb_promise players_callback = Some Pending
  /\ promises (exec (dgram_send_done 0 (inr 9)) world_sending) !! 0%nat
     = Some (Fulfilled (mkResponse 9 (set_sequence 0 players) None 0%nat)).
Proof.
  split; [reflexivity|]. split; [reflexivity|]. split; [reflexivity|].
  apply (C8_send_untracked_resolves 0 players_callback 9 world_sending);
    reflexivity.
Defined.

Lemma C10_auto_connect_witness :
  wf Socket_new
  /\ obj_get (connections Socket_new)
       (hashAddress (details_ip server) (details_port server)) = None
  /\ result (Socket_connection server no_options true) Socket_new = Returns 0%nat.
Proof.
  assert (Hwf : wf Socket_new) by constructor.
  split; [exact Hwf|]. split; [reflexivity|].
  destruct (C10_auto_connect server no_options Socket_new Hwf)
    as (Hres & _); [reflexivity | exact Hres].
Defined.

(** ** The further properties on concrete runs *)

Lemma X1_receive_delivers_witness :
  registered world_listening
    (hashAddress (address server_info) (port server_info)) = Some 0%nat
  /\ heap world_listening !! 0%nat = Some server_connection
  /\ Packet_FROM players_frame = inr (set_sequence 0 players)
  /\ valid (set_sequence 0 players) = true
  /\ effects (Socket_receive players_frame server_info) world_listening
     = [Call_FROM players_frame; Call_recieve 0%nat (set_sequence 0 players);
        SocketEmit (Ev_received false (set_sequence 0 players) players_frame
                      0%nat server_info);
        ConnectionEmit 0%nat
          (CEv_received false (set_sequence 0 players) players_frame
             server_info)].
Proof.
  do 4 (split; [reflexivity|]).
  destruct (X1_receive_delivers players_frame server_info world_listening
              0%nat server_connection (set_sequence 0 players))
    as (_ & Heff & _); [reflexivity.. | exact Heff].
Defined.

Lemma X3_send_not_a_connection_witness :
  valid players = true
  /\ (forall l : nat, @Foreign nat = Instance l -> heap world_listening !! l = None)
  /\ promises (exec (Socket_send Foreign (Instance players) true) world_listening)
     = [Rejected (TypeError "connection must be an instance of Connection")].
Proof.
  split; [reflexivity|]. split; [intros l H; discriminate H|].
  destruct (X3_send_not_a_connection Foreign players true world_listening)
    as (_ & Hp & _); [reflexivity | intros l H; discriminate H | exact Hp].
Defined.

Lemma X4_send_serialize_throws_witness :
  heap world_listening !! 0%nat = Some server_connection
  /\ valid oversized = true
  /\ encode_checked oversized = inl (Thrown "RangeError" "sequence out of range")
  /\ promises (exec (@Socket_send checked_codec spec_connection
                       (Instance 0%nat) (Instance oversized) true)
                 world_listening)
     = [Rejected (Thrown "RangeError" "sequence out of range")].
Proof.
  do 3 (split; [reflexivity|]).
  destruct (@X4_send_serialize_throws checked_codec spec_connection 0%nat
              server_connection oversized true
              (Thrown "RangeError" "sequence out of range") world_listening)
    as (_ & Hp & _); [reflexivity.. | exact Hp].
Defined.

Lemma X5_send_after_close_witness :
  @kill_returns spec_connection None
  /\ dgram_queue world_listening = None
  /\ heap (exec (Socket_close None) world_listening) !! 0%nat
     = Some killed_connection
  /\ 1 <= conn_port killed_connection <= 65535
  /\ valid players = true
  /\ Packet_serialize (set_sequence 0 players) = inr players_frame
  /\ promises (exec (Socket_send (Instance 0%nat) (Instance players) true)
                 (exec (Socket_close None) world_listening))
     = [Rejected ERR_SOCKET_DGRAM_NOT_RUNNING].
Proof.
  assert (Hk : @kill_returns spec_connection None) by (intros s; reflexivity).
  assert (Hport : 1 <= conn_port killed_connection <= 65535) by (cbn; lia).
  split; [exact Hk|]. split; [reflexivity|]. split; [reflexivity|].
  split; [exact Hport|]. do 2 (split; [reflexivity|]).
  destruct (X5_send_after_close None 0%nat killed_connection players true
              players_frame world_listening Hk)
    as (_ & Hp & _); [reflexivity | reflexivity | exact Hport | reflexivity..
                     | exact Hp].
Defined.

Lemma X6_send_tracked_stores_witness :
  dgram_sending world_tracking !! 0%nat = Some (Some tracked_callback)
  /\ cb_resolve tracked_callback = true
  /\ promises world_tracking !! cb_promise tracked_callback = Some Pending
  /\ heap world_tracking !! cb_connection tracked_callback
     = Some sequenced_connection
  /\ effects (dgram_send_done 0 (inr 9)) world_tracking
     = [SocketEmit (Ev_sent (set_sequence 0 players) players_frame 9 0%nat);
        Call_store 0%nat (mkStore (set_sequence 0 players) 9 0%nat)]
  /\ promises (exec (dgram_send_done 0 (inr 9)) world_tracking) !! 0%nat
     = Some Pending.
Proof.
  do 4 (split; [reflexivity|]).
  destruct (X6_send_tracked_stores 0 tracked_callback sequenced_connection 9
              world_tracking)
    as (_ & Heff & Hp); [reflexivity.. |].
  split; [exact Heff | exact Hp].
Defined.

Lemma X7_connection_without_connect_witness :
  (false = false
   \/ obj_get (connections Socket_new)
        (hashAddress (details_ip server) (details_port server)) <> None)
  /\ effects (Socket_connection server no_options false) Socket_new = []
  /\ dgram_once_listening (exec (Socket_connection server no_options false)
                             Socket_new) = [].
Proof.
  split; [left; reflexivity|].
  destruct (X7_connection_without_connect server no_options false Socket_new)
    as (Heff & Honce & _); [left; reflexivity|].
  split; [exact Heff | exact Honce].
Defined.

Lemma X8_listening_connects_deferred_once_witness :
  wf world_registered
  /\ effects dgram_emit_listening world_registered
     = [SocketEmit Ev_listening; Call_connect 0%nat 0%nat]
  /\ effects dgram_emit_listening (exec dgram_emit_listening world_registered)
     = [SocketEmit Ev_listening].
Proof.
  assert (Hwf : wf world_registered) by (repeat constructor).
  split; [exact Hwf|].
  destruct (X8_listening_connects_deferred_once world_registered Hwf)
    as (_ & Heff & _ & _ & Hagain).
  split; [exact Heff | exact Hagain].
Defined.

Lemma X9_registry_reachable_witness :
  reachable world_sending /\ registry_ok world_sending.
Proof.
  assert (Hreach : reachable world_sending).
  { apply (reachable_step _ (Do_send (Instance 0%nat) (Instance players) false)).
    apply (reachable_step _ On_listening).
    apply (reachable_step _ (Do_connection server no_options true)).
    apply reachable_new. }
  split; [exact Hreach | exact (X9_registry_reachable world_sending Hreach)].
Defined.

Lemma X10_registration_is_permanent_witness :
  registered world_listening "10.0.0.1:2302" = Some 0%nat
  /\ heap world_listening !! 0%nat = Some server_connection
  /\ registered
       (perform_all [Do_close None; On_close; On_error (Thrown "Error" "EIO")]
          world_listening)
       "10.0.0.1:2302" = Some 0%nat.
Proof.
  do 2 (split; [reflexivity|]).
  destruct (X10_registration_is_permanent
              [Do_close None; On_close; On_error (Thrown "Error" "EIO")]
              world_listening "10.0.0.1:2302" 0%nat server_connection)
    as (Hreg & _); [reflexivity.. | exact Hreg].
Defined.

Lemma X11_only_connection_registers_witness :
  (forall details options connect,
     On_message [] stranger_info <> Do_connection details options connect)
  /\ connections (perform (On_message [] stranger_info) world_listening)
     = connections world_listening.
Proof.
  assert (Hne : forall details options connect,
            On_message [] stranger_info
            <> Do_connection details options connect)
    by (intros details options connect H; discriminate H).
  split; [exact Hne|].
  exact (X11_only_connection_registers (On_message [] stranger_info)
           world_listening Hne).
Defined.

Lemma X13_datagrams_reach_their_connection_witness :
  obj_get (connections Socket_new)
    (hashAddress (details_ip server) (details_port server)) = None
  /\ address server_info = details_ip server
  /\ port server_info = details_port server
  /\ Packet_FROM players_frame = inr (set_sequence 0 players)
  /\ valid (set_sequence 0 players) = true
  /\ registered
       (perform_all [On_listening; Do_close None]
          (exec (Socket_connection server no_options true) Socket_new))
       (hashAddress (details_ip server) (details_port server)) = Some 0%nat.
Proof.
  do 5 (split; [reflexivity|]).
  destruct (X13_datagrams_reach_their_connection server no_options true
              [On_listening; Do_close None] players_frame server_info
              (set_sequence 0 players) Socket_new)
    as (Hreg & _); [reflexivity.. | exact Hreg].
Defined.

Lemma X14_close_kills_each_once_witness :
  registry_ok world_listening
  /\ @kill_returns spec_connection None
  /\ effects (Socket_close None) world_listening
     = [Call_kill 0%nat None; Dgram_close].
Proof.
  assert (Hok : registry_ok world_listening).
  { repeat split; try (apply NoDup_singleton).
    intros id l [H|[]]. injection H as <- <-.
    exists server_connection. repeat split. }
  assert (Hk : @kill_returns spec_connection None) by (intros s; reflexivity).
  split; [exact Hok|]. split; [exact Hk|].
  destruct (X14_close_kills_each_once None world_listening Hok Hk)
    as (Heff & _).
  exact Heff.
Defined.

Lemma X15_connect_at_most_once_witness :
  reachable world_sending
  /\ (connects 0 (trace world_sending) <= 1)%nat.
Proof.
  assert (Hreach : reachable world_sending).
  { apply (reachable_step _ (Do_send (Instance 0%nat) (Instance players) false)).
    apply (reachable_step _ On_listening).
    apply (reachable_step _ (Do_connection server no_options true)).
    apply reachable_new. }
  split; [exact Hreach|].
  exact (proj1 (X15_connect_at_most_once world_sending 0%nat Hreach)).
Defined.

Lemma in_flight_reachable_witness :
  reachable world_sending /\ in_flight world_sending.
Proof.
  assert (Hreach : reachable world_sending).
  { apply (reachable_step _ (Do_send (Instance 0%nat) (Instance players) false)).
    apply (reachable_step _ On_listening).
    apply (reachable_step _ (Do_connection server no_options true)).
    apply reachable_new. }
  split; [exact Hreach | exact (in_flight_reachable world_sending Hreach)].
Defined.
